(** * inventaris-backend: the request handlers of [server.js] over a model of the store

    The server is an Express application whose handlers talk to a MySQL pool
    through callbacks.  The embedding keeps that shape:

    - JavaScript strings are sequences of UTF-16 code units ([jsstring]);
      a body field is a string or absent ([option jsstring], [None] standing
      for [undefined] and [null], which the driver both sends as SQL NULL);
    - the three tables are lists of rows with the AUTO_INCREMENT counter of
      each; the columns [created_at] and [updated_at] are left out, no
      handler returns them;
    - a handler is a tree of store statements, each with the callback that
      receives [(err, result)]; [run] executes one handler alone, [run_pool]
      interleaves the statements of several handlers;
    - a statement is executed atomically; it is rejected either by the
      store for a reason the tables show (UNIQUE, NOT NULL, FOREIGN KEY) or
      because the caller of [run] injects a failure (lost connection,
      value too long, ...), and a rejected statement changes nothing;
    - strings are compared and ordered by the store code unit by code unit. *)

From stdpp Require Import gmap list strings sorting.
From Stdlib Require Import ZArith.

Open Scope Z_scope.

(** ** JavaScript strings and values *)

Abbreviation jsstring := (list N).

(** The code units of an ASCII literal. *)
Fixpoint js (s : string) : jsstring :=
  match s with
  | EmptyString => []
  | String a s' => Ascii.N_of_ascii a :: js s'
  end.

(** [WhiteSpace] and [LineTerminator] of ECMAScript, what [trim] strips. *)
Definition is_whitespace (c : N) : bool :=
  ((9 <=? c) && (c <=? 13) || (c =? 32) || (c =? 160) || (c =? 5760)
   || (8192 <=? c) && (c <=? 8202) || (c =? 8232) || (c =? 8233)
   || (c =? 8239) || (c =? 8287) || (c =? 12288) || (c =? 65279))%N.

Fixpoint trimStart (s : jsstring) : jsstring :=
  match s with
  | c :: s' => if is_whitespace c then trimStart s' else s
  | [] => []
  end.

(** [String.prototype.trim] *)
Definition trim (s : jsstring) : jsstring :=
  reverse (trimStart (reverse (trimStart s))).

(** Truthiness of a string-or-absent value: [!v] is [negb (truthy v)]. *)
Definition truthy (v : option jsstring) : bool :=
  match v with
  | Some (_ :: _) => true
  | _ => false
  end.

(** The property key an [obj[v]] access uses: [null] becomes ["null"]. *)
Definition prop_key (v : option jsstring) : jsstring :=
  match v with
  | Some s => s
  | None => js "null"
  end.

(** A plain object [{}] holding numbers, as the map of its own properties.
    [obj[k] = n]: the key ["__proto__"] reaches the setter inherited from
    [Object.prototype], which ignores a number and creates no property. *)
Definition js_set (obj : gmap jsstring Z) (k : jsstring) (n : Z) : gmap jsstring Z :=
  if decide (k = js "__proto__") then obj else <[k := n]> obj.

(** The sum of the values of an object. *)
Definition sum_values (obj : gmap jsstring Z) : Z :=
  map_fold (λ _ n acc, n + acc) 0 obj.

(** ** The tables *)

Record user_row := UserRow {
  user_id : Z;
  user_username : jsstring;
  user_email : jsstring;
  user_password : jsstring
}.

Record category_row := CategoryRow {
  category_id : Z;
  category_name : jsstring
}.

Record inventory_row := InventoryRow {
  inv_id : Z;
  inv_no : Z;
  inv_kategori : jsstring;
  inv_code_barang : option jsstring;
  inv_nama : jsstring;
  inv_serial_number : option jsstring;
  inv_tanggal : option jsstring;
  inv_lokasi : option jsstring;
  inv_asal_barang : option jsstring;
  inv_status : option jsstring;
  inv_ukuran : option jsstring;
  inv_keterangan : option jsstring;
  inv_created_by : Z
}.

Record db := Db {
  users : list user_row;
  users_auto : Z;
  categories : list category_row;
  categories_auto : Z;
  inventory : list inventory_row;
  inventory_auto : Z
}.

(** The tables right after [initializeDatabase]. *)
Definition empty_db : db := Db [] 1 [] 1 [] 1.

(** The descriptive fields of an item as a request body carries them. *)
Record item_fields := ItemFields {
  kategori : option jsstring;
  codeBarang : option jsstring;
  nama : option jsstring;
  serialNumber : option jsstring;
  tanggal : option jsstring;
  lokasi : option jsstring;
  asalBarang : option jsstring;
  status : option jsstring;
  ukuran : option jsstring;
  keterangan : option jsstring
}.

(** ** Statements and their execution *)

Inductive dberr : Type :=
  | ER_DUP_ENTRY
  | ER_BAD_NULL_ERROR
  | ER_NO_REFERENCED_ROW
  | ER_FAULT.

Inductive query : Type → Type :=
  | InsertUser (username email : option jsstring) (password : jsstring) : query Z
  | SelectUserByUsername (username : option jsstring) : query (list user_row)
  | SelectCategoryNames : query (list jsstring)
  | InsertCategory (name : option jsstring) : query Z
  | UpdateCategoryName (new old : jsstring) : query unit
  | UpdateInventoryKategori (new old : jsstring) : query unit
  | DeleteCategory (name : jsstring) : query unit
  | SelectInventory : query (list inventory_row)
  | SelectMaxNo : query (list (option Z))
  | InsertInventory (no : Z) (f : item_fields) (created_by : Z) : query Z
  | UpdateInventory (f : item_fields) (id : Z) : query unit
  | DeleteInventory (id : Z) : query unit
  | CountInventory : query (list Z)
  | GroupByStatus : query (list (option jsstring * Z))
  | GroupByKategori : query (list (jsstring * Z)).

(** *** Ordering *)

(** Code unit by code unit, a prefix first. *)
Fixpoint jsstring_leb (s t : jsstring) : bool :=
  match s, t with
  | [], _ => true
  | _ :: _, [] => false
  | a :: s', b :: t' =>
      if (a <? b)%N then true else if (a =? b)%N then jsstring_leb s' t' else false
  end.

Definition jsstring_le (s t : jsstring) : Prop := jsstring_leb s t = true.

Global Instance jsstring_le_dec (s t : jsstring) : Decision (jsstring_le s t).
Proof. unfold jsstring_le. apply _. Defined.

Definition no_le (r1 r2 : inventory_row) : Prop := inv_no r1 ≤ inv_no r2.

Global Instance no_le_dec (r1 r2 : inventory_row) : Decision (no_le r1 r2).
Proof. unfold no_le. apply _. Defined.

(** *** Aggregates *)

(** [MAX(no)]: NULL on the empty table. *)
Fixpoint max_no (rows : list inventory_row) : option Z :=
  match rows with
  | [] => None
  | r :: rows' =>
      match max_no rows' with
      | None => Some (inv_no r)
      | Some m => Some (Z.max (inv_no r) m)
      end
  end.

(** One more row in the group of [k], a new group when there is none. *)
Fixpoint bump {K} `{EqDecision K} (k : K) (groups : list (K * Z)) : list (K * Z) :=
  match groups with
  | [] => [(k, 1)]
  | (k', n) :: groups' =>
      if decide (k = k') then (k', n + 1) :: groups' else (k', n) :: bump k groups'
  end.

(** [SELECT col, COUNT( * ) ... GROUP BY col]: one row per distinct value,
    NULL being a value of its own. *)
Definition group_count {K} `{EqDecision K} (col : list K) : list (K * Z) :=
  foldl (λ groups k, bump k groups) [] col.

(** *** Row updates *)

(** [SET name = new WHERE name = old] on one row. *)
Definition rename_category_row (new old : jsstring) (c : category_row) : category_row :=
  if decide (category_name c = old) then CategoryRow (category_id c) new else c.

(** The row an item's fields make, NULL where a field is absent. *)
Definition item_row (id no : Z) (k n : jsstring) (f : item_fields) (created_by : Z)
  : inventory_row :=
  InventoryRow id no k (codeBarang f) n (serialNumber f) (tanggal f) (lokasi f)
    (asalBarang f) (status f) (ukuran f) (keterangan f) created_by.

Definition set_kategori (k : jsstring) (r : inventory_row) : inventory_row :=
  InventoryRow (inv_id r) (inv_no r) k (inv_code_barang r) (inv_nama r)
    (inv_serial_number r) (inv_tanggal r) (inv_lokasi r) (inv_asal_barang r)
    (inv_status r) (inv_ukuran r) (inv_keterangan r) (inv_created_by r).

(** [SET kategori = new WHERE kategori = old] on one row. *)
Definition relabel_row (new old : jsstring) (r : inventory_row) : inventory_row :=
  if decide (inv_kategori r = old) then set_kategori new r else r.

(** [SET kategori = k, ..., keterangan = ... WHERE id = id] on one row. *)
Definition set_fields (k n : jsstring) (f : item_fields) (id : Z) (r : inventory_row)
  : inventory_row :=
  if decide (inv_id r = id)
  then item_row (inv_id r) (inv_no r) k n f (inv_created_by r)
  else r.

Definition has_name (name : jsstring) (cs : list category_row) : bool :=
  bool_decide (name ∈ map category_name cs).

Definition with_users (st : db) (us : list user_row) (auto : Z) : db :=
  Db us auto (categories st) (categories_auto st) (inventory st) (inventory_auto st).

Definition with_categories (st : db) (cs : list category_row) (auto : Z) : db :=
  Db (users st) (users_auto st) cs auto (inventory st) (inventory_auto st).

Definition with_inventory (st : db) (rows : list inventory_row) (auto : Z) : db :=
  Db (users st) (users_auto st) (categories st) (categories_auto st) rows auto.

(** What the store does with one statement: the error or the result, and
    the tables afterwards.  UNIQUE on [users.username], [users.email] and
    [categories.name]; NOT NULL on [inventory.kategori] and
    [inventory.nama]; [inventory.created_by] references [users.id]. *)
Definition db_exec {R} (q : query R) (st : db) : (dberr + R) * db :=
  match q in query R return (dberr + R) * db with
  | InsertUser username email password =>
      match username, email with
      | Some u, Some e =>
          if bool_decide (u ∈ map user_username (users st))
             || bool_decide (e ∈ map user_email (users st))
          then (inl ER_DUP_ENTRY, st)
          else (inr (users_auto st),
                with_users st (users st ++ [UserRow (users_auto st) u e password])
                  (users_auto st + 1))
      | _, _ => (inl ER_BAD_NULL_ERROR, st)
      end
  | SelectUserByUsername username =>
      (inr (filter (λ u, Some (user_username u) = username) (users st)), st)
  | SelectCategoryNames =>
      (inr (merge_sort jsstring_le (map category_name (categories st))), st)
  | InsertCategory name =>
      match name with
      | Some n =>
          if has_name n (categories st)
          then (inl ER_DUP_ENTRY, st)
          else (inr (categories_auto st),
                with_categories st (categories st ++ [CategoryRow (categories_auto st) n])
                  (categories_auto st + 1))
      | None => (inl ER_BAD_NULL_ERROR, st)
      end
  | UpdateCategoryName new old =>
      if has_name old (categories st) && has_name new (categories st)
         && negb (bool_decide (new = old))
      then (inl ER_DUP_ENTRY, st)
      else (inr (),
            with_categories st (map (rename_category_row new old) (categories st))
              (categories_auto st))
  | UpdateInventoryKategori new old =>
      (inr (), with_inventory st (map (relabel_row new old) (inventory st))
                 (inventory_auto st))
  | DeleteCategory name =>
      (inr (),
       with_categories st (filter (λ c, category_name c ≠ name) (categories st))
         (categories_auto st))
  | SelectInventory => (inr (merge_sort no_le (inventory st)), st)
  | SelectMaxNo => (inr [max_no (inventory st)], st)
  | InsertInventory no f created_by =>
      match kategori f, nama f with
      | Some k, Some n =>
          if bool_decide (created_by ∈ map user_id (users st))
          then (inr (inventory_auto st),
                with_inventory st
                  (inventory st ++ [item_row (inventory_auto st) no k n f created_by])
                  (inventory_auto st + 1))
          else (inl ER_NO_REFERENCED_ROW, st)
      | _, _ => (inl ER_BAD_NULL_ERROR, st)
      end
  | UpdateInventory f id =>
      match kategori f, nama f with
      | Some k, Some n =>
          (inr (), with_inventory st (map (set_fields k n f id) (inventory st))
                     (inventory_auto st))
      | _, _ =>
          if bool_decide (id ∈ map inv_id (inventory st))
          then (inl ER_BAD_NULL_ERROR, st)
          else (inr (), st)
      end
  | DeleteInventory id =>
      (inr (), with_inventory st (filter (λ r, inv_id r ≠ id) (inventory st))
                 (inventory_auto st))
  | CountInventory => (inr [Z.of_nat (length (inventory st))], st)
  | GroupByStatus => (inr (group_count (map inv_status (inventory st))), st)
  | GroupByKategori => (inr (group_count (map inv_kategori (inventory st))), st)
  end.

(** ** Handlers *)

(** The identity a token embeds, also the public fields of a user. *)
Record public_user := PublicUser {
  pu_id : Z;
  pu_username : jsstring;
  pu_email : jsstring
}.

(** A signed token: the payload, the issue and expiry times [jwt.sign] adds
    (seconds), and the key it was signed with. *)
Record jwt := Jwt {
  jwt_payload : public_user;
  jwt_iat : Z;
  jwt_exp : Z;
  jwt_key : jsstring
}.

(** [jwt.sign(payload, secret, { expiresIn: '24h' })] at time [now]. *)
Definition jwt_sign (payload : public_user) (secret : jsstring) (now : Z) : jwt :=
  Jwt payload now (now + 86400) secret.

(** [jwt.verify(token, secret)] at time [now]: the payload, or nothing when
    the signature is of another key or the token has expired. *)
Definition jwt_verify (token : jwt) (secret : jsstring) (now : Z) : option public_user :=
  if decide (jwt_key token = secret)
  then if decide (now < jwt_exp token) then Some (jwt_payload token) else None
  else None.

(** An item as [GET /api/inventory] returns it. *)
Record item_view := ItemView {
  v_id : Z;
  v_no : Z;
  v_kategori : jsstring;
  v_codeBarang : option jsstring;
  v_nama : jsstring;
  v_serialNumber : option jsstring;
  v_tanggal : option jsstring;
  v_lokasi : option jsstring;
  v_asalBarang : option jsstring;
  v_status : option jsstring;
  v_ukuran : option jsstring;
  v_keterangan : option jsstring
}.

Record stats := Stats {
  total : Z;
  byStatus : gmap jsstring Z;
  byCategory : gmap jsstring Z
}.

(** The bodies the handlers send. *)
Inductive body : Type :=
  | StatusText
  | Message (message : string)
  | MessageError (message : string) (error : dberr)
  | UserRegistered (message : string) (userId : Z)
  | LoginSuccessful (message : string) (token : jwt) (user : public_user)
  | CategoryNames (names : list jsstring)
  | CategoryAdded (message : string) (id : Z)
  | Items (items : list item_view)
  | ItemAdded (message : string) (id no : Z)
  | Statistics (s : stats).

Inductive exn : Type :=
  | TypeError (message : string).

(** What a callback is called with: [(err)] alone, [result] being
    [undefined], or [(null, result)]. *)
Inductive cbargs (R : Type) : Type :=
  | CbErr (err : dberr)
  | CbOk (result : R).
Arguments CbErr {R} err.
Arguments CbOk {R} result.

(** A handler from its first statement on: it responds, or an exception
    escapes a callback, or it sends a statement and continues in the
    callback. *)
Inductive handler : Type :=
  | Respond (code : Z) (b : body)
  | Throw (e : exn)
  | DbQuery {R : Type} (q : query R) (cb : cbargs R → handler).

(** [v || 0] for a number or [null]/[undefined]. *)
Definition or_zero (v : option Z) : Z :=
  match v with
  | Some n => if n =? 0 then 0 else n
  | None => 0
  end.

(** *** Categories *)

(** [GET /api/categories] *)
Definition list_categories : handler :=
  DbQuery SelectCategoryNames (λ a,
    match a with
    | CbErr err => Respond 500 (MessageError "Database error" err)
    | CbOk rows => Respond 200 (CategoryNames rows)
    end).

(** [POST /api/categories] *)
Definition add_category (name : option jsstring) : handler :=
  if negb (truthy name)
  then Respond 400 (Message "Category name required")
  else
    DbQuery (InsertCategory name) (λ a,
      match a with
      | CbErr _ => Respond 400 (Message "Category already exists")
      | CbOk insertId => Respond 200 (CategoryAdded "Category added" insertId)
      end).

(** [PUT /api/categories/:oldName]; [oldName] is the path parameter once
    [decodeURIComponent] has returned it, [newName] the body field. *)
Definition rename_category (oldName : jsstring) (newName : option jsstring) : handler :=
  match newName with
  | Some newName =>
      match trim newName with
      | [] => Respond 400 (Message "New category name required")
      | trimmedNewName =>
          DbQuery (UpdateCategoryName trimmedNewName oldName) (λ a,
            match a with
            | CbErr err => Respond 500 (MessageError "Error updating category" err)
            | CbOk _ =>
                DbQuery (UpdateInventoryKategori trimmedNewName oldName) (λ a,
                  match a with
                  | CbErr _ => Respond 500 (Message "Error updating items")
                  | CbOk _ => Respond 200 (Message "Category updated successfully")
                  end)
            end)
      end
  | None => Respond 400 (Message "New category name required")
  end.

(** [DELETE /api/categories/:name], [name] decoded as above. *)
Definition delete_category (name : jsstring) : handler :=
  DbQuery (DeleteCategory name) (λ a,
    match a with
    | CbErr _ => Respond 500 (Message "Error deleting category")
    | CbOk _ => Respond 200 (Message "Category deleted")
    end).

(** *** Inventory *)

Definition view (r : inventory_row) : item_view :=
  ItemView (inv_id r) (inv_no r) (inv_kategori r) (inv_code_barang r) (inv_nama r)
    (inv_serial_number r) (inv_tanggal r) (inv_lokasi r) (inv_asal_barang r)
    (inv_status r) (inv_ukuran r) (inv_keterangan r).

(** [GET /api/inventory] *)
Definition list_items : handler :=
  DbQuery SelectInventory (λ a,
    match a with
    | CbErr err => Respond 500 (MessageError "Database error" err)
    | CbOk rows => Respond 200 (Items (map view rows))
    end).

(** [POST /api/inventory] for the authenticated [user].  The first callback
    never looks at [err]: [result[0]] is read at once, and reading an index
    of [undefined] throws. *)
Definition add_item (user : public_user) (f : item_fields) : handler :=
  if negb (truthy (nama f)) || negb (truthy (kategori f))
  then Respond 400 (Message "Nama and kategori required")
  else
    DbQuery SelectMaxNo (λ a,
      match a with
      | CbErr _ =>
          Throw (TypeError "Cannot read properties of undefined (reading '0')")
      | CbOk result =>
          let no := or_zero (mjoin (head result)) + 1 in
          DbQuery (InsertInventory no f (pu_id user)) (λ a,
            match a with
            | CbErr err => Respond 500 (MessageError "Error adding item" err)
            | CbOk insertId => Respond 200 (ItemAdded "Item added" insertId no)
            end)
      end).

(** [PUT /api/inventory/:id]; [id] is the number the store reads the path
    parameter as when it compares it with the column [id]. *)
Definition update_item (id : Z) (f : item_fields) : handler :=
  DbQuery (UpdateInventory f id) (λ a,
    match a with
    | CbErr err => Respond 500 (MessageError "Error updating item" err)
    | CbOk _ => Respond 200 (Message "Item updated")
    end).

(** [DELETE /api/inventory/:id] *)
Definition delete_item (id : Z) : handler :=
  DbQuery (DeleteInventory id) (λ a,
    match a with
    | CbErr err => Respond 500 (MessageError "Error deleting item" err)
    | CbOk _ => Respond 200 (Message "Item deleted")
    end).

(** *** Statistics *)

(** [GET /api/stats] *)
Definition get_stats : handler :=
  DbQuery CountInventory (λ a,
    match a with
    | CbErr _ => Respond 500 (Message "Database error")
    | CbOk totalResult =>
        let total := or_zero (head totalResult) in
        DbQuery GroupByStatus (λ a,
          match a with
          | CbErr _ => Respond 500 (Message "Database error")
          | CbOk statusData =>
              DbQuery GroupByKategori (λ a,
                match a with
                | CbErr _ => Respond 500 (Message "Database error")
                | CbOk categoryData =>
                    Respond 200
                      (Statistics
                         (Stats total
                            (foldl (λ acc item, js_set acc (prop_key item.1) item.2)
                               ∅ statusData)
                            (foldl (λ acc item, js_set acc item.1 item.2)
                               ∅ categoryData)))
                end)
          end)
    end).

(** ** Running handlers *)

Inductive outcome : Type :=
  | Responded (code : Z) (b : body)
  | Uncaught (e : exn).

(** One statement against the store; [fault] makes the store fail it. *)
Definition db_step {R} (q : query R) (fault : bool) (st : db) : cbargs R * db :=
  if fault then (CbErr ER_FAULT, st)
  else
    match db_exec q st with
    | (inl err, st') => (CbErr err, st')
    | (inr result, st') => (CbOk result, st')
    end.

(** A handler run alone from the tables [st].  [faults] says, statement by
    statement, whether the store fails it; past its end no statement
    fails. *)
Fixpoint run (h : handler) (faults : list bool) (st : db) : outcome * db :=
  match h with
  | Respond code b => (Responded code b, st)
  | Throw e => (Uncaught e, st)
  | DbQuery q cb =>
      let '(a, st') := db_step q (default false (head faults)) st in
      run (cb a) (tail faults) st'
  end.

(** Several handlers in flight.  The event loop runs one callback at a
    time and the store one statement at a time, so an execution is a
    sequence of turns: entry [i] of the schedule lets handler [i] send its
    next statement and run the callback on the answer.  A handler that has
    responded, and an index out of range, take no turn. *)
Definition pool_step (i : nat) (p : list handler) (st : db) : list handler * db :=
  match p !! i with
  | Some (DbQuery q cb) =>
      let '(a, st') := db_step q false st in (<[i := cb a]> p, st')
  | _ => (p, st)
  end.

Fixpoint run_pool (schedule : list nat) (p : list handler) (st : db)
  : list handler * db :=
  match schedule with
  | [] => (p, st)
  | i :: schedule' =>
      let '(p', st') := pool_step i p st in run_pool schedule' p' st'
  end.

(** The schedule without interleaving: handler after handler, each with as
    many turns as [turns] gives it. *)
Definition serial_schedule (turns n : nat) : list nat :=
  flat_map (λ i, replicate turns i) (seq 0 n).

(** ** Authentication and the routes *)

Section Server.
(** [process.env.JWT_SECRET || 'your_secret_key'] and the two functions of
    bcryptjs; [hashSync] draws a salt, taken here as an argument. *)
Variable JWT_SECRET : jsstring.
Variable hashSync : jsstring → Z → jsstring → jsstring.
Variable compareSync : jsstring → jsstring → bool.

(** [authenticateToken], for the token piece of the Authorization header. *)
Definition authenticateToken (token : option jwt) (now : Z)
    (next : public_user → handler) : handler :=
  match token with
  | None => Respond 401 StatusText
  | Some t =>
      match jwt_verify t JWT_SECRET now with
      | None => Respond 403 StatusText
      | Some user => next user
      end
  end.

(** [POST /api/auth/register] *)
Definition register (salt : jsstring) (username email password : option jsstring)
  : handler :=
  match password with
  | Some ((_ :: _) as pw) =>
      if negb (truthy username) || negb (truthy email)
      then Respond 400 (Message "All fields required")
      else
        let hashedPassword := hashSync pw 10 salt in
        DbQuery (InsertUser username email hashedPassword) (λ a,
          match a with
          | CbErr _ => Respond 400 (Message "Username or email already exists")
          | CbOk insertId =>
              Respond 200 (UserRegistered "User registered successfully" insertId)
          end)
  | _ => Respond 400 (Message "All fields required")
  end.

(** [POST /api/auth/login] at time [now] *)
Definition login (now : Z) (username password : option jsstring) : handler :=
  match password with
  | Some ((_ :: _) as pw) =>
      if negb (truthy username)
      then Respond 400 (Message "Username and password required")
      else
        DbQuery (SelectUserByUsername username) (λ a,
          match a with
          | CbErr _ | CbOk [] => Respond 400 (Message "User not found")
          | CbOk (user :: _) =>
              if negb (compareSync pw (user_password user))
              then Respond 400 (Message "Invalid password")
              else
                let token :=
                  jwt_sign (PublicUser (user_id user) (user_username user)
                              (user_email user)) JWT_SECRET now in
                Respond 200
                  (LoginSuccessful "Login successful" token
                     (PublicUser (user_id user) (user_username user)
                        (user_email user)))
          end)
  | _ => Respond 400 (Message "Username and password required")
  end.

(** The requests the server answers.  A protected route carries the
    token piece of its Authorization header and the time of the call. *)
Inductive request : Type :=
  | PostRegister (salt : jsstring) (username email password : option jsstring)
  | PostLogin (now : Z) (username password : option jsstring)
  | GetCategories (token : option jwt) (now : Z)
  | PostCategory (token : option jwt) (now : Z) (name : option jsstring)
  | PutCategory (token : option jwt) (now : Z) (oldName : jsstring)
      (newName : option jsstring)
  | DeleteCategoryByName (token : option jwt) (now : Z) (name : jsstring)
  | GetInventory (token : option jwt) (now : Z)
  | PostInventory (token : option jwt) (now : Z) (f : item_fields)
  | PutInventory (token : option jwt) (now : Z) (id : Z) (f : item_fields)
  | DeleteInventoryById (token : option jwt) (now : Z) (id : Z)
  | GetStats (token : option jwt) (now : Z).

Definition app (req : request) : handler :=
  match req with
  | PostRegister salt username email password => register salt username email password
  | PostLogin now username password => login now username password
  | GetCategories token now => authenticateToken token now (λ _, list_categories)
  | PostCategory token now name => authenticateToken token now (λ _, add_category name)
  | PutCategory token now oldName newName =>
      authenticateToken token now (λ _, rename_category oldName newName)
  | DeleteCategoryByName token now name =>
      authenticateToken token now (λ _, delete_category name)
  | GetInventory token now => authenticateToken token now (λ _, list_items)
  | PostInventory token now f => authenticateToken token now (λ user, add_item user f)
  | PutInventory token now id f => authenticateToken token now (λ _, update_item id f)
  | DeleteInventoryById token now id =>
      authenticateToken token now (λ _, delete_item id)
  | GetStats token now => authenticateToken token now (λ _, get_stats)
  end.

(** The tables the server can reach from the empty ones, one request
    after the other. *)
Inductive reachable : db → Prop :=
  | reachable_empty : reachable empty_db
  | reachable_run req faults st :
      reachable st → reachable (run (app req) faults st).2.
End Server.

(** ** Notions the statements use *)

(** The number the next item gets from the rows [rows]. *)
Definition next_no (rows : list inventory_row) : Z :=
  match max_no rows with
  | Some m => m + 1
  | None => 1
  end.

(** A request [add_item] accepts, from a user the [users] table holds. *)
Definition acceptable (st : db) (user : public_user) (f : item_fields) : Prop :=
  truthy (nama f) = true ∧ truthy (kategori f) = true ∧
  pu_id user ∈ map user_id (users st).

(** The row [add_item] inserts. *)
Definition added_row (st : db) (user : public_user) (f : item_fields) : inventory_row :=
  item_row (inventory_auto st) (next_no (inventory st)) (default [] (kategori f))
    (default [] (nama f)) f (pu_id user).

Definition add_row (st : db) (r : inventory_row) : db :=
  with_inventory st (inventory st ++ [r]) (inventory_auto st + 1).

(** An outcome that reports a failure: anything but a 2xx response. *)
Definition failed (o : outcome) : Prop :=
  match o with
  | Responded code _ => ¬ (200 ≤ code < 300)
  | Uncaught _ => True
  end.

(** The registry statement of a rename is rejected exactly when both names
    are in the registry and differ. *)
Definition rename_clash (new old : jsstring) (st : db) : bool :=
  has_name old (categories st) && has_name new (categories st)
  && negb (bool_decide (new = old)).

Definition renamed_registry (new old : jsstring) (st : db) : db :=
  with_categories st (map (rename_category_row new old) (categories st))
    (categories_auto st).

Definition relabelled_items (new old : jsstring) (st : db) : db :=
  with_inventory st (map (relabel_row new old) (inventory st)) (inventory_auto st).


(** The names [list_categories] returns from the tables [st]. *)
Definition category_list (st : db) : list jsstring :=
  merge_sort jsstring_le (map category_name (categories st)).

(** An add request: who sends it and the fields of the item. *)
Definition add_request : Type := public_user * item_fields.

Definition add_handler (q : add_request) : handler := add_item q.1 q.2.

(** The answers and the tables when the requests are served one after the
    other. *)
Fixpoint add_all (reqs : list add_request) (st : db) : list handler * db :=
  match reqs with
  | [] => ([], st)
  | q :: reqs' =>
      let rest := add_all reqs' (add_row st (added_row st q.1 q.2)) in
      (Respond 200 (ItemAdded "Item added" (inventory_auto st) (next_no (inventory st)))
         :: rest.1,
       rest.2)
  end.

(** An add that has made its lookup and computed the number [no]: what is
    left of the handler is the insert and its callback. *)
Definition insert_stage (no : Z) (q : add_request) : handler :=
  DbQuery (InsertInventory no q.2 (pu_id q.1)) (λ a,
    match a with
    | CbErr err => Respond 500 (MessageError "Error adding item" err)
    | CbOk insertId => Respond 200 (ItemAdded "Item added" insertId no)
    end).

(** Where an add of a pool stands when the numbers 1 to [m] are in the
    catalog: not started, waiting to insert a number up to [m + 1], or
    answered. *)
Definition add_stage (us : list user_row) (m : Z) (h : handler) : Prop :=
  (∃ q, h = add_handler q ∧ truthy (nama q.2) = true ∧ truthy (kategori q.2) = true
        ∧ pu_id q.1 ∈ map user_id us)
  ∨ (∃ n q, h = insert_stage n q ∧ 1 ≤ n ≤ m + 1
            ∧ truthy (nama q.2) = true ∧ truthy (kategori q.2) = true
            ∧ pu_id q.1 ∈ map user_id us)
  ∨ (∃ code b, h = Respond code b).

(** The catalog holds exactly the numbers 1 to [m], on at least [m] rows. *)
Definition numbers_up_to (m : Z) (st : db) : Prop :=
  0 ≤ m ≤ Z.of_nat (length (inventory st))
  ∧ ∀ k, k ∈ map inv_no (inventory st) ↔ 1 ≤ k ≤ m.

(** The numbers [n] consecutive adds get after the number [base]. *)
Definition numbers_after (base : Z) (n : nat) : list Z :=
  map (λ i, base + Z.of_nat i) (seq 1 n).

(** The objects [get_stats] builds from the rows of the two GROUP BY. *)
Definition status_object (groups : list (option jsstring * Z)) : gmap jsstring Z :=
  foldl (λ acc item, js_set acc (prop_key item.1) item.2) ∅ groups.

Definition category_object (groups : list (jsstring * Z)) : gmap jsstring Z :=
  foldl (λ acc item, js_set acc item.1 item.2) ∅ groups.

(** The sum of the counts of the rows of a GROUP BY. *)
Definition sum_counts {K} (groups : list (K * Z)) : Z :=
  foldr (λ item acc, item.2 + acc) 0 groups.

(** The values that meet on a key of a plain object, or fall on
    ["__proto__"]: an item in category "__proto__", an item with that status,
    or items without a status next to items with the status "null". *)
Definition key_clash (st : db) : Prop :=
  js "__proto__" ∈ map inv_kategori (inventory st)
  ∨ Some (js "__proto__") ∈ map inv_status (inventory st)
  ∨ (None ∈ map inv_status (inventory st)
     ∧ Some (js "null") ∈ map inv_status (inventory st)).

(** ** The header of a protected request *)

(** [s.split(' ')]: the pieces between single spaces, empty ones kept. *)
Fixpoint split_space (s : jsstring) : list jsstring :=
  match s with
  | [] => [[]]
  | c :: s' =>
      if (c =? 32)%N then [] :: split_space s'
      else
        match split_space s' with
        | piece :: pieces => (c :: piece) :: pieces
        | [] => [[c]]
        end
  end.

(** [authHeader && authHeader.split(' ')[1]], when it is truthy: the token
    [authenticateToken] goes on with, [None] where it answers 401. *)
Definition header_token (authHeader : option jsstring) : option jsstring :=
  match authHeader with
  | Some ((_ :: _) as h) =>
      match split_space h !! 1%nat with
      | Some ((_ :: _) as token) => Some token
      | _ => None
      end
  | _ => None
  end.

(** [authenticateToken] from the header on.  [jwt_decode] reads the compact
    form of a token; [jwt.verify] fails on a string that is none. *)
Definition authenticateHeader (JWT_SECRET : jsstring)
    (jwt_decode : jsstring → option jwt) (authHeader : option jsstring) (now : Z)
    (next : public_user → handler) : handler :=
  match header_token authHeader with
  | None => Respond 401 StatusText
  | Some token =>
      match jwt_decode token with
      | None => Respond 403 StatusText
      | Some t => authenticateToken JWT_SECRET (Some t) now next
      end
  end.

(** ** Further notions *)

(** The token and the time of a request to a protected route. *)
Definition request_token (req : request) : option (option jwt * Z) :=
  match req with
  | PostRegister _ _ _ _ | PostLogin _ _ _ => None
  | GetCategories token now | PostCategory token now _
  | PutCategory token now _ _ | DeleteCategoryByName token now _
  | GetInventory token now | PostInventory token now _
  | PutInventory token now _ _ | DeleteInventoryById token now _
  | GetStats token now => Some (token, now)
  end.


(** A handler all of whose statements satisfy [P], whatever the store
    answers. *)
Inductive sends (P : ∀ R, query R → Prop) : handler → Prop :=
  | sends_respond code b : sends P (Respond code b)
  | sends_throw e : sends P (Throw e)
  | sends_query R (q : query R) cb :
      P R q → (∀ a, sends P (cb a)) → sends P (DbQuery q cb).

Definition is_select R (q : query R) : Prop :=
  match q with
  | SelectUserByUsername _ | SelectCategoryNames | SelectInventory | SelectMaxNo
  | CountInventory | GroupByStatus | GroupByKategori => True
  | _ => False
  end.

Definition not_insert_inventory R (q : query R) : Prop :=
  match q with
  | InsertInventory _ _ _ => False
  | _ => True
  end.

(** What the schema promises of the tables: the UNIQUE columns hold no
    value twice, the ids are distinct and below the counter of their table,
    and [created_by] names a user. *)
Record consistent (st : db) : Prop := Consistent {
  usernames_unique : NoDup (map user_username (users st));
  emails_unique : NoDup (map user_email (users st));
  user_ids_unique : NoDup (map user_id (users st));
  user_ids_below : Forall (λ u, user_id u < users_auto st) (users st);
  category_names_unique : NoDup (map category_name (categories st));
  category_ids_unique : NoDup (map category_id (categories st));
  category_ids_below : Forall (λ c, category_id c < categories_auto st) (categories st);
  item_ids_unique : NoDup (map inv_id (inventory st));
  item_ids_below : Forall (λ r, inv_id r < inventory_auto st) (inventory st);
  creators_exist : Forall (λ r, inv_created_by r ∈ map user_id (users st)) (inventory st)
}.

(** The display numbers are positive and no two items share one. *)
Definition numbered (st : db) : Prop :=
  NoDup (map inv_no (inventory st)) ∧ Forall (λ r, 1 ≤ inv_no r) (inventory st).

(** The handler an outcome leaves in the pool. *)
Definition settled (o : outcome) : handler :=
  match o with
  | Responded code b => Respond code b
  | Uncaught e => Throw e
  end.

(** An item whose descriptive columns hold the fields sent, NULL where a
    field is absent. *)
Definition carries_fields (k n : jsstring) (f : item_fields) (r : inventory_row) : Prop :=
  inv_kategori r = k ∧ inv_nama r = n
  ∧ inv_code_barang r = codeBarang f ∧ inv_serial_number r = serialNumber f
  ∧ inv_tanggal r = tanggal f ∧ inv_lokasi r = lokasi f
  ∧ inv_asal_barang r = asalBarang f ∧ inv_status r = status f
  ∧ inv_ukuran r = ukuran f ∧ inv_keterangan r = keterangan f.

(** What [update_item] makes of a row: the row [id] takes the fields sent
    and keeps its id, number and creator, every other row is as it was. *)
Definition updated (k n : jsstring) (f : item_fields) (id : Z) (r r' : inventory_row)
  : Prop :=
  if decide (inv_id r = id)
  then carries_fields k n f r'
       ∧ inv_id r' = inv_id r ∧ inv_no r' = inv_no r
       ∧ inv_created_by r' = inv_created_by r
  else r' = r.

(** The number of items labelled [k]. *)
Definition count_kategori (k : jsstring) (rows : list inventory_row) : Z :=
  Z.of_nat (length (filter (λ r, inv_kategori r = k) rows)).

(** The first row of a GROUP BY for the value [k]. *)
Fixpoint group_of {K} `{EqDecision K} (k : K) (groups : list (K * Z)) : option Z :=
  match groups with
  | [] => None
  | (k', n) :: groups' => if decide (k = k') then Some n else group_of k groups'
  end.

(** A handler that writes at most once, with its last statement, and
    answers 2xx when that statement goes through. *)
Inductive writes_last : handler → Prop :=
  | writes_last_respond code b : writes_last (Respond code b)
  | writes_last_throw e : writes_last (Throw e)
  | writes_last_select R (q : query R) cb :
      is_select R q → (∀ a, writes_last (cb a)) → writes_last (DbQuery q cb)
  | writes_last_write R (q : query R) cb :
      (∀ err, ∃ o, cb (CbErr err) = settled o) →
      (∀ result, ∃ code b, cb (CbOk result) = Respond code b ∧ 200 ≤ code < 300) →
      writes_last (DbQuery q cb).

(** The number of items whose status is the string [s]. *)
Definition count_status (s : jsstring) (rows : list inventory_row) : Z :=
  Z.of_nat (length (filter (λ r, inv_status r = Some s) rows)).

(** An entry of an object of the statistics: present with the count when
    the count is not zero. *)
Definition entry (count : Z) : option Z :=
  if count =? 0 then None else Some count.

(** * Properties *)

(** ** The store *)

Lemma with_inventory_same st :
  with_inventory st (inventory st) (inventory_auto st) = st.
Proof. by destruct st. Qed.

Lemma with_categories_same st :
  with_categories st (categories st) (categories_auto st) = st.
Proof. by destruct st. Qed.

Lemma truthy_Some v : truthy v = true ↔ ∃ c s, v = Some (c :: s).
Proof.
  split.
  - destruct v as [[|c s]|]; simpl; try discriminate. eauto.
  - intros (c & s & ->). reflexivity.
Qed.

(** [(maxNo || 0) + 1] is the maximum plus one, whatever its sign. *)
Lemma or_zero_succ m : or_zero (Some m) + 1 = m + 1.
Proof. unfold or_zero. destruct (Z.eqb_spec m 0); lia. Qed.

Lemma max_no_None rows : max_no rows = None ↔ rows = [].
Proof.
  split; [|by intros ->].
  destruct rows as [|r rows]; [done|]. simpl. by destruct (max_no rows).
Qed.

Lemma max_no_upper rows m :
  max_no rows = Some m → Forall (λ r, inv_no r ≤ m) rows.
Proof.
  revert m. induction rows as [|r rows IH]; intros m Hm; [constructor|].
  simpl in Hm. destruct (max_no rows) as [m'|] eqn:E.
  - injection Hm as <-. constructor; [lia|].
    eapply Forall_impl; [by apply IH|]. simpl. intros; lia.
  - injection Hm as <-. apply max_no_None in E as ->. by repeat constructor.
Qed.

Lemma max_no_attained rows m :
  max_no rows = Some m → m ∈ map inv_no rows.
Proof.
  revert m. induction rows as [|r rows IH]; intros m Hm; [done|].
  simpl in Hm. destruct (max_no rows) as [m'|] eqn:E.
  - injection Hm as <-. simpl.
    destruct (Z.max_spec (inv_no r) m') as [[_ ->]|[_ ->]].
    + right. by apply IH.
    + left.
  - injection Hm as <-. left.
Qed.

Lemma max_no_snoc rows r :
  max_no (rows ++ [r]) =
  Some (match max_no rows with Some m => Z.max m (inv_no r) | None => inv_no r end).
Proof.
  induction rows as [|r' rows IH]; [done|].
  simpl. rewrite IH. destruct (max_no rows) as [m|]; f_equal; lia.
Qed.

(** Rows that a WHERE clause does not select stay as they are. *)
Lemma set_fields_absent k n f id rows :
  id ∉ map inv_id rows → map (set_fields k n f id) rows = rows.
Proof.
  induction rows as [|r rows IH]; [done|].
  simpl. intros Hid. apply not_elem_of_cons in Hid as [Hne Hid].
  rewrite IH by done. unfold set_fields. by rewrite decide_False.
Qed.


Lemma has_name_true name cs : has_name name cs = true ↔ name ∈ map category_name cs.
Proof. unfold has_name. apply bool_decide_eq_true. Qed.

Lemma has_name_false name cs : has_name name cs = false ↔ name ∉ map category_name cs.
Proof. unfold has_name. apply bool_decide_eq_false. Qed.

(** ** One statement of a run *)

Lemma run_query_fault {R} (q : query R) cb faults st :
  run (DbQuery q cb) (true :: faults) st = run (cb (CbErr ER_FAULT)) faults st.
Proof. reflexivity. Qed.

Lemma run_query_ok {R} (q : query R) cb faults st result st' :
  head faults ≠ Some true →
  db_exec q st = (inr result, st') →
  run (DbQuery q cb) faults st = run (cb (CbOk result)) (tail faults) st'.
Proof.
  intros Hf Hq. cbn [run]. unfold db_step. rewrite Hq.
  by destruct faults as [|[] faults].
Qed.

Lemma run_query_err {R} (q : query R) cb faults st err st' :
  head faults ≠ Some true →
  db_exec q st = (inl err, st') →
  run (DbQuery q cb) faults st = run (cb (CbErr err)) (tail faults) st'.
Proof.
  intros Hf Hq. cbn [run]. unfold db_step. rewrite Hq.
  by destruct faults as [|[] faults].
Qed.

(** ** Adding an item *)

Lemma or_zero_max_no rows : or_zero (max_no rows) + 1 = next_no rows.
Proof. unfold next_no. destruct (max_no rows); [apply or_zero_succ|done]. Qed.

Lemma add_item_unfold user f :
  truthy (nama f) = true → truthy (kategori f) = true →
  add_item user f =
  DbQuery SelectMaxNo (λ a,
    match a with
    | CbErr _ =>
        Throw (TypeError "Cannot read properties of undefined (reading '0')")
    | CbOk result =>
        let no := or_zero (mjoin (head result)) + 1 in
        DbQuery (InsertInventory no f (pu_id user)) (λ a,
          match a with
          | CbErr err => Respond 500 (MessageError "Error adding item" err)
          | CbOk insertId => Respond 200 (ItemAdded "Item added" insertId no)
          end)
    end).
Proof. intros Hn Hk. unfold add_item. by rewrite Hn, Hk. Qed.

Lemma insert_inventory_ok st user f :
  acceptable st user f →
  db_exec (InsertInventory (next_no (inventory st)) f (pu_id user)) st =
  (inr (inventory_auto st), add_row st (added_row st user f)).
Proof.
  intros (Hn & Hk & Hu).
  apply truthy_Some in Hn as (c1 & s1 & Hn), Hk as (c2 & s2 & Hk).
  unfold added_row. simpl. rewrite Hn, Hk. simpl.
  by rewrite bool_decide_eq_true_2.
Qed.

(** An accepted request that the store serves is answered with the new id
    and the next number, and its row is appended. *)
Lemma add_item_ok st user f :
  acceptable st user f →
  run (add_item user f) [] st =
  (Responded 200 (ItemAdded "Item added" (inventory_auto st) (next_no (inventory st))),
   add_row st (added_row st user f)).
Proof.
  intros Hacc. pose proof Hacc as (Hn & Hk & Hu).
  rewrite add_item_unfold by done.
  erewrite run_query_ok; [|done|reflexivity].
  cbn [head mjoin option_join option_bind tail]. rewrite or_zero_max_no.
  erewrite run_query_ok; [|done|by apply insert_inventory_ok].
  reflexivity.
Qed.

(** The store either inserts the row or rejects the statement and keeps
    the table. *)
Lemma insert_inventory_step no f uid fault st :
  (∃ k n, kategori f = Some k ∧ nama f = Some n ∧
     db_step (InsertInventory no f uid) fault st =
     (CbOk (inventory_auto st), add_row st (item_row (inventory_auto st) no k n f uid)))
  ∨ (∃ err, db_step (InsertInventory no f uid) fault st = (CbErr err, st)).
Proof.
  unfold db_step. destruct fault; [right; eauto|]. simpl.
  destruct (kategori f) as [k|]; [|right; eauto].
  destruct (nama f) as [n|]; [|right; eauto].
  case_bool_decide; [left|right]; eauto.
Qed.

(** The run of [add_item] on fields that pass the check, statement by
    statement. *)
Lemma add_item_run user f faults st :
  truthy (nama f) = true → truthy (kategori f) = true →
  run (add_item user f) faults st =
  if default false (head faults)
  then (Uncaught (TypeError "Cannot read properties of undefined (reading '0')"), st)
  else
    match db_step (InsertInventory (next_no (inventory st)) f (pu_id user))
            (default false (head (tail faults))) st with
    | (CbOk insertId, st') =>
        (Responded 200 (ItemAdded "Item added" insertId (next_no (inventory st))), st')
    | (CbErr err, st') => (Responded 500 (MessageError "Error adding item" err), st')
    end.
Proof.
  intros Hn Hk. rewrite add_item_unfold by done.
  destruct faults as [|[] faults]; [| reflexivity |].
  - erewrite run_query_ok; [|done|reflexivity].
    cbn [head mjoin option_join option_bind tail]. rewrite or_zero_max_no.
    cbn [run head tail default].
    by destruct (db_step _ _ _) as [[] ?].
  - erewrite run_query_ok; [|done|reflexivity].
    cbn [head mjoin option_join option_bind tail]. rewrite or_zero_max_no.
    cbn [run head tail default].
    by destruct (db_step _ _ _) as [[] ?].
Qed.

Lemma add_item_rejects user f faults st :
  truthy (nama f) = false ∨ truthy (kategori f) = false →
  run (add_item user f) faults st =
  (Responded 400 (Message "Nama and kategori required"), st).
Proof.
  unfold add_item. intros [-> | ->]; [done|].
  by rewrite orb_true_r.
Qed.

(** The number an add computes is above every number of the catalog; it
    is 1 on the empty catalog and one more than the number of some item
    otherwise. *)
Lemma next_no_is_max_plus_one rows :
  (∀ r, r ∈ rows → inv_no r < next_no rows)
  ∧ (rows = [] → next_no rows = 1)
  ∧ (rows ≠ [] → ∃ r, r ∈ rows ∧ next_no rows = inv_no r + 1).
Proof.
  unfold next_no. destruct (max_no rows) as [m|] eqn:Hm.
  - split; [|split].
    + intros r Hr. apply max_no_upper in Hm.
      eapply Forall_forall in Hm; [|done]. simpl in Hm. lia.
    + intros ->. done.
    + intros _. apply max_no_attained, list_elem_of_In, in_map_iff in Hm
        as (r & <- & Hr). exists r. split; [by apply list_elem_of_In|done].
  - apply max_no_None in Hm as ->. split; [|split]; try done.
    intros r Hr. by apply elem_of_nil in Hr.
Qed.

(** C3: a successful add numbers the new item with the maximum [no] present
    plus one (a number above every number present and one more than one of
    them), and with 1 on the empty catalog; an add whose [nama] or
    [kategori] is empty is answered 400 and leaves the tables as they
    were. *)
Theorem add_item_assigns_next_no user f faults st :
  (truthy (nama f) = false ∨ truthy (kategori f) = false →
   run (add_item user f) faults st =
   (Responded 400 (Message "Nama and kategori required"), st))
  ∧ (∀ b st',
       run (add_item user f) faults st = (Responded 200 b, st') →
       ∃ id no row,
         b = ItemAdded "Item added" id no
         ∧ (∀ r, r ∈ inventory st → inv_no r < no)
         ∧ (inventory st = [] → no = 1)
         ∧ (inventory st ≠ [] → ∃ r, r ∈ inventory st ∧ no = inv_no r + 1)
         ∧ inventory st' = inventory st ++ [row]
         ∧ inv_id row = id ∧ inv_no row = no
         ∧ Some (inv_nama row) = nama f ∧ Some (inv_kategori row) = kategori f
         ∧ inv_created_by row = pu_id user
         ∧ users st' = users st ∧ categories st' = categories st)
  ∧ (acceptable st user f →
     ∃ id no st', run (add_item user f) [] st =
                  (Responded 200 (ItemAdded "Item added" id no), st')).
Proof.
  split; [apply add_item_rejects|]. split.
  - intros b st' Hrun.
    destruct (truthy (nama f)) eqn:Hn;
      [|rewrite add_item_rejects in Hrun by auto; congruence].
    destruct (truthy (kategori f)) eqn:Hk;
      [|rewrite add_item_rejects in Hrun by auto; congruence].
    rewrite add_item_run in Hrun by done.
    destruct (default false (head faults)); [congruence|].
    destruct (insert_inventory_step (next_no (inventory st)) f (pu_id user)
                (default false (head (tail faults))) st)
      as [(k & n & Ek & En & Hstep) | (err & Hstep)];
      rewrite Hstep in Hrun; [|congruence].
    injection Hrun as <- <-.
    destruct (next_no_is_max_plus_one (inventory st)) as (Habove & Hone & Hmax).
    eexists _, _, _. split; [reflexivity|]. split; [exact Habove|].
    split; [exact Hone|]. split; [exact Hmax|]. by repeat split.
  - intros Hacc. eexists _, _, _. by apply add_item_ok.
Qed.

(** C3 at work: with the numbers 3, 7 and 5 in the catalog the next item
    gets number 8, and the 400 of an add without [nama]. *)
Lemma add_item_assigns_next_no_witness :
  let row := λ id no, InventoryRow id no (js "IT") None (js "Desk") None None None None
                        None None None 1 in
  let st := Db [UserRow 1 (js "ann") (js "ann@example.org") (js "hash")] 2 [] 1
              [row 1 3; row 2 7; row 3 5] 4 in
  let user := PublicUser 1 (js "ann") (js "ann@example.org") in
  let f := ItemFields (Some (js "IT")) None (Some (js "Laptop A")) None None None None
             None None None in
  let g := ItemFields (Some (js "IT")) None (Some []) None None None None None None None in
  (run (add_item user g) [] st).1 = Responded 400 (Message "Nama and kategori required")
  ∧ (run (add_item user f) [] st).1 = Responded 200 (ItemAdded "Item added" 4 8)
  ∧ (∃ id no new,
       ItemAdded "Item added" 4 8 = ItemAdded "Item added" id no
       ∧ (∀ r, r ∈ inventory st → inv_no r < no)
       ∧ (inventory st = [] → no = 1)
       ∧ (inventory st ≠ [] → ∃ r, r ∈ inventory st ∧ no = inv_no r + 1)
       ∧ inventory (run (add_item user f) [] st).2 = inventory st ++ [new]
       ∧ inv_id new = id ∧ inv_no new = no
       ∧ Some (inv_nama new) = nama f ∧ Some (inv_kategori new) = kategori f
       ∧ inv_created_by new = pu_id user
       ∧ users (run (add_item user f) [] st).2 = users st
       ∧ categories (run (add_item user f) [] st).2 = categories st)
  ∧ (∃ id no st', run (add_item user f) [] st =
                  (Responded 200 (ItemAdded "Item added" id no), st')).
Proof.
  intros row st user f g. split; [|split; [|split]].
  - by rewrite (proj1 (add_item_assigns_next_no user g [] st)); [|left].
  - reflexivity.
  - exact (proj1 (proj2 (add_item_assigns_next_no user f [] st)) _ _ eq_refl).
  - apply (proj2 (proj2 (add_item_assigns_next_no user f [] st))).
    repeat split. by apply (bool_decide_unpack _).
Defined.

(** C9: when the lookup of the maximum [no] fails, [add_item] sends no
    response at all: the callback ignores [err], reads [result[0]] of an
    undefined [result], and the TypeError escapes; the tables are as they
    were. *)
Theorem add_item_lookup_failure_uncaught user f faults st :
  truthy (nama f) = true → truthy (kategori f) = true →
  run (add_item user f) (true :: faults) st =
  (Uncaught (TypeError "Cannot read properties of undefined (reading '0')"), st)
  ∧ ∀ code b, (run (add_item user f) (true :: faults) st).1 ≠ Responded code b.
Proof.
  intros Hn Hk. rewrite add_item_run by done. by split.
Qed.

Lemma add_item_lookup_failure_uncaught_witness :
  let user := PublicUser 1 (js "ann") (js "ann@example.org") in
  let f := ItemFields (Some (js "IT")) None (Some (js "Laptop A")) None None None None
             None None None in
  run (add_item user f) [true] empty_db =
  (Uncaught (TypeError "Cannot read properties of undefined (reading '0')"), empty_db)
  ∧ ∀ code b, (run (add_item user f) [true] empty_db).1 ≠ Responded code b.
Proof.
  intros user f.
  apply (add_item_lookup_failure_uncaught user f [] empty_db); reflexivity.
Defined.

(** ** Updating an item *)

(** C5, as the spec has it, fails: updating an id the catalog does not hold
    is answered 200 "Item updated". *)
Lemma update_item_absent_reports_success :
  let f := ItemFields (Some (js "IT")) None (Some (js "Laptop A")) None None None None
             None None None in
  (7 ∉ map inv_id (inventory empty_db))
  ∧ run (update_item 7 f) [] empty_db = (Responded 200 (Message "Item updated"), empty_db)
  ∧ ¬ failed (run (update_item 7 f) [] empty_db).1.
Proof.
  intros f. split; [|split].
  - simpl. apply not_elem_of_nil.
  - reflexivity.
  - simpl. lia.
Qed.

Lemma update_inventory_absent f id st :
  id ∉ map inv_id (inventory st) → db_exec (UpdateInventory f id) st = (inr (), st).
Proof.
  intros Hid. simpl.
  destruct (kategori f) as [k|], (nama f) as [n|];
    rewrite ?bool_decide_eq_false_2 by done; try done.
  by rewrite set_fields_absent, with_inventory_same.
Qed.

(** C5 amended: for an id the catalog does not hold, the update changes
    nothing and is answered 200 "Item updated" when the store executes the
    statement, 500 when the store fails it; there is no not-found answer. *)
Theorem update_item_absent id f faults st :
  id ∉ map inv_id (inventory st) →
  run (update_item id f) faults st =
  (if default false (head faults)
   then Responded 500 (MessageError "Error updating item" ER_FAULT)
   else Responded 200 (Message "Item updated"),
   st).
Proof.
  intros Hid. unfold update_item. destruct faults as [|[] faults]; [|done|].
  - by erewrite run_query_ok; [|done|by apply update_inventory_absent].
  - by erewrite run_query_ok; [|done|by apply update_inventory_absent].
Qed.

Lemma update_item_absent_witness :
  let f := ItemFields None None None None None None None None None None in
  let st := Db [] 1 [] 1
              [InventoryRow 1 1 (js "IT") None (js "Laptop A") None None None None None
                 None None 1] 2 in
  run (update_item 2 f) [] st = (Responded 200 (Message "Item updated"), st).
Proof.
  intros f st. apply (update_item_absent 2 f [] st).
  vm_compute. intros H. apply list_elem_of_In in H. simpl in H. intuition discriminate.
Defined.

(** ** Renaming a category *)

Lemma rename_category_unfold oldName newName :
  trim newName ≠ [] →
  rename_category oldName (Some newName) =
  DbQuery (UpdateCategoryName (trim newName) oldName) (λ a,
    match a with
    | CbErr err => Respond 500 (MessageError "Error updating category" err)
    | CbOk _ =>
        DbQuery (UpdateInventoryKategori (trim newName) oldName) (λ a,
          match a with
          | CbErr _ => Respond 500 (Message "Error updating items")
          | CbOk _ => Respond 200 (Message "Category updated successfully")
          end)
    end).
Proof. unfold rename_category. by destruct (trim newName). Qed.

Lemma rename_category_blank oldName newName faults st :
  match newName with Some s => trim s = [] | None => True end →
  run (rename_category oldName newName) faults st =
  (Responded 400 (Message "New category name required"), st).
Proof. unfold rename_category. destruct newName as [s|]; [|done]. by intros ->. Qed.

Lemma update_category_name_exec new old st :
  db_exec (UpdateCategoryName new old) st =
  if rename_clash new old st then (inl ER_DUP_ENTRY, st)
  else (inr (), renamed_registry new old st).
Proof. reflexivity. Qed.

(** The run of a rename with a non-blank new name, for every way the two
    statements can go: [f1] fails the registry statement, [f2] the item
    statement. *)
Lemma rename_category_run oldName newName faults st :
  trim newName ≠ [] →
  let f1 := default false (head faults) in
  let f2 := default false (head (tail faults)) in
  run (rename_category oldName (Some newName)) faults st =
  if f1 then (Responded 500 (MessageError "Error updating category" ER_FAULT), st)
  else if rename_clash (trim newName) oldName st
  then (Responded 500 (MessageError "Error updating category" ER_DUP_ENTRY), st)
  else if f2
  then (Responded 500 (Message "Error updating items"),
        renamed_registry (trim newName) oldName st)
  else (Responded 200 (Message "Category updated successfully"),
        relabelled_items (trim newName) oldName
          (renamed_registry (trim newName) oldName st)).
Proof.
  intros Hnew f1 f2. rewrite rename_category_unfold by done.
  cbn [run]. fold f1. destruct f1; [done|].
  unfold db_step at 1. rewrite update_category_name_exec.
  destruct (rename_clash (trim newName) oldName st); [done|].
  cbn [run]. fold f2. by destruct f2.
Qed.



Lemma renamed_names new old cs :
  map category_name (map (rename_category_row new old) cs) =
  map (λ n, if decide (n = old) then new else n) (map category_name cs).
Proof.
  rewrite !map_map. apply map_ext. intros c.
  unfold rename_category_row. by destruct (decide _).
Qed.

Lemma renamed_category_ids new old cs :
  map category_id (map (rename_category_row new old) cs) = map category_id cs.
Proof.
  rewrite map_map. apply map_ext. intros c.
  unfold rename_category_row. by destruct (decide _).
Qed.





(** A 200 from a rename means that the new name is not blank and that both
    statements went through. *)
Lemma rename_category_success oldName newName faults st b st' :
  run (rename_category oldName (Some newName)) faults st = (Responded 200 b, st') →
  trim newName ≠ [] ∧
  b = Message "Category updated successfully" ∧
  st' = relabelled_items (trim newName) oldName
          (renamed_registry (trim newName) oldName st).
Proof.
  intros Hrun.
  destruct (decide (trim newName = [])) as [Hblank|Hnew].
  { rewrite rename_category_blank in Hrun by done. congruence. }
  rewrite rename_category_run in Hrun by done.
  destruct (default false (head faults)); [congruence|].
  destruct (rename_clash _ _ _); [congruence|].
  destruct (default false (head (tail faults))); [congruence|].
  by injection Hrun as <- <-.
Qed.








(** ** Deleting a category *)

(** The order of [ORDER BY name] is a total order. *)
Global Instance jsstring_le_total : Total jsstring_le.
Proof.
  intros s. unfold jsstring_le.
  induction s as [|a s IH]; intros [|b t]; simpl; auto.
  destruct (N.ltb_spec a b), (N.ltb_spec b a), (N.eqb_spec a b), (N.eqb_spec b a);
    auto; lia.
Qed.

Global Instance jsstring_le_trans : Transitive jsstring_le.
Proof.
  intros s. unfold jsstring_le.
  induction s as [|a s IH]; intros [|b t] [|c u]; simpl; try done.
  destruct (N.ltb_spec a b), (N.ltb_spec b c), (N.ltb_spec a c),
    (N.eqb_spec a b), (N.eqb_spec b c), (N.eqb_spec a c);
    try done; try lia; eauto.
Qed.

Global Instance jsstring_le_antisymm : AntiSymm (=) jsstring_le.
Proof.
  intros s. unfold jsstring_le.
  induction s as [|a s IH]; intros [|b t]; simpl; try done.
  destruct (N.ltb_spec a b), (N.ltb_spec b a), (N.eqb_spec a b), (N.eqb_spec b a);
    try done; try lia.
  intros H1 H2. subst. f_equal. by apply IH.
Qed.

Lemma list_categories_run st :
  run list_categories [] st = (Responded 200 (CategoryNames (category_list st)), st).
Proof. reflexivity. Qed.

Lemma filter_category_names name cs :
  map category_name (filter (λ c, category_name c ≠ name) cs) =
  filter (λ n, n ≠ name) (map category_name cs).
Proof.
  induction cs as [|c cs IH]; [done|].
  rewrite filter_cons. simpl. rewrite filter_cons.
  destruct (decide (category_name c ≠ name)); simpl; by rewrite IH.
Qed.

Lemma StronglySorted_filter_names name (names : list jsstring) :
  StronglySorted jsstring_le names →
  StronglySorted jsstring_le (filter (λ n, n ≠ name) names).
Proof.
  induction 1 as [|n names Hsorted IH Hle]; [constructor|].
  rewrite filter_cons. destruct (decide (n ≠ name)); [|done].
  constructor; [done|].
  apply Forall_forall. intros m Hm. apply list_elem_of_filter in Hm as [_ Hm].
  by eapply Forall_forall in Hle.
Qed.

(** Sorting and dropping a name commute. *)
Lemma sort_filter_names name (names : list jsstring) :
  merge_sort jsstring_le (filter (λ n, n ≠ name) names) =
  filter (λ n, n ≠ name) (merge_sort jsstring_le names).
Proof.
  apply (StronglySorted_unique jsstring_le).
  - apply StronglySorted_merge_sort; apply _.
  - apply StronglySorted_filter_names, StronglySorted_merge_sort; apply _.
  - by rewrite !merge_sort_Permutation.
Qed.

(** C8: deleting category A removes the registry rows named A and nothing
    else: the list of categories afterwards is the list before without A,
    and the inventory, with the items labelled A, is exactly as it was. *)
Theorem delete_category_keeps_items name st :
  let r := run (delete_category name) [] st in
  r.1 = Responded 200 (Message "Category deleted")
  ∧ categories r.2 = filter (λ c, category_name c ≠ name) (categories st)
  ∧ (run list_categories [] r.2).1 =
    Responded 200 (CategoryNames (filter (λ n, n ≠ name) (category_list st)))
  ∧ inventory r.2 = inventory st
  ∧ users r.2 = users st.
Proof.
  intros r. unfold r. cbn [delete_category run db_step head tail default db_exec fst snd].
  repeat split. rewrite list_categories_run. unfold category_list at 1. simpl.
  by rewrite filter_category_names, sort_filter_names.
Qed.

(** ** Logging in *)

(** Every statement keeps the usernames of the [users] table distinct, so
    every run does. *)
Lemma db_exec_usernames_unique {R} (q : query R) st :
  NoDup (map user_username (users st)) →
  NoDup (map user_username (users (db_exec q st).2)).
Proof.
  intros Hnd. destruct q; simpl; try done.
  - destruct username as [u|], email as [e|]; try done.
    destruct (bool_decide (u ∈ _)) eqn:Hu; [done|]. simpl.
    destruct (bool_decide (e ∈ _)); [done|]. simpl.
    apply bool_decide_eq_false in Hu.
    rewrite map_app. apply NoDup_app. split; [done|]. split.
    + intros x Hx Hx'. apply list_elem_of_singleton in Hx'. by subst.
    + apply NoDup_singleton.
  - by destruct name as [n|]; [destruct (has_name _ _)|].
  - by destruct (_ && _).
  - destruct (kategori f), (nama f); try done. by case_bool_decide.
  - destruct (kategori f), (nama f); try done; by case_bool_decide.
Qed.

Lemma run_usernames_unique h faults st :
  NoDup (map user_username (users st)) →
  NoDup (map user_username (users (run h faults st).2)).
Proof.
  revert faults st. induction h as [code b|e|R q cb IH]; intros faults st Hnd;
    [done|done|].
  cbn [run]. destruct (db_step q _ st) as [a st1] eqn:Hstep. apply IH.
  unfold db_step in Hstep. destruct (default false (head faults)).
  - by injection Hstep as <- <-.
  - pose proof (db_exec_usernames_unique q st Hnd) as Hnd'.
    destruct (db_exec q st) as [[err|result] st2]; by injection Hstep as <- <-.
Qed.

Lemma reachable_usernames_unique secret hashSync compareSync st :
  reachable secret hashSync compareSync st →
  NoDup (map user_username (users st)).
Proof.
  induction 1 as [|req faults st Hreach IH]; [constructor|].
  by apply run_usernames_unique.
Qed.

Lemma select_user_none name (us : list user_row) :
  name ∉ map user_username us →
  filter (λ u', Some (user_username u') = Some name) us = [].
Proof.
  induction us as [|u' us IH]; [done|].
  simpl. intros Hname. apply not_elem_of_cons in Hname as [Hne Hname].
  rewrite filter_cons, decide_False; [by apply IH|]. congruence.
Qed.

(** With distinct usernames, the lookup by username finds the one row. *)
Lemma select_user_unique (u : user_row) (us : list user_row) :
  NoDup (map user_username us) → u ∈ us →
  filter (λ u', Some (user_username u') = Some (user_username u)) us = [u].
Proof.
  induction us as [|u' us IH]; intros Hnd Hu; [by apply elem_of_nil in Hu|].
  simpl in Hnd. apply NoDup_cons in Hnd as [Hfresh Hnd].
  rewrite filter_cons. apply elem_of_cons in Hu as [<- | Hu].
  - rewrite decide_True by done. f_equal. by apply select_user_none.
  - rewrite decide_False; [by apply IH|].
    intros [= Hname]. apply Hfresh. rewrite Hname.
    apply list_elem_of_In, in_map, list_elem_of_In, Hu.
Qed.

Lemma jwt_verify_sign payload secret now t :
  t < now + 86400 → jwt_verify (jwt_sign payload secret now) secret t = Some payload.
Proof.
  intros Ht. unfold jwt_verify, jwt_sign. simpl.
  by rewrite !decide_True.
Qed.

(** C7: for a stored user, a login with a password that the hash comparison
    accepts is answered with a token that embeds the id, username and email
    of the stored row, next to these same three public fields; the answer
    is built from them alone, the stored hash is no part of it.  A login
    with a password that the comparison rejects is answered 400, without a
    token. *)
Theorem login_token secret compareSync now u pw faults st :
  NoDup (map user_username (users st)) →
  u ∈ users st →
  user_username u ≠ [] →
  pw ≠ [] →
  let claims := PublicUser (user_id u) (user_username u) (user_email u) in
  let attempt := login secret compareSync now (Some (user_username u)) (Some pw) in
  if compareSync pw (user_password u)
  then ∃ token,
         run attempt [] st =
         (Responded 200 (LoginSuccessful "Login successful" token claims), st)
         ∧ token = jwt_sign claims secret now
         ∧ jwt_payload token = claims
         ∧ jwt_verify token secret now = Some claims
  else ∃ m, run attempt faults st = (Responded 400 (Message m), st).
Proof.
  intros Hnd Hu Hname Hpw claims attempt. unfold attempt, claims, login.
  destruct pw as [|c pw]; [done|].
  assert (truthy (Some (user_username u)) = true) as ->
    by (by destruct (user_username u)).
  cbn [negb].
  destruct (compareSync (c :: pw) (user_password u)) eqn:Hcmp.
  - eexists.
    erewrite run_query_ok; [|done|].
    2:{ simpl. by rewrite select_user_unique. }
    cbv beta iota. rewrite Hcmp. simpl. repeat split.
    apply jwt_verify_sign. lia.
  - destruct faults as [|[] faults].
    + erewrite run_query_ok; [|done|].
      2:{ simpl. by rewrite select_user_unique. }
      cbv beta iota. rewrite Hcmp. simpl. eauto.
    + rewrite run_query_fault. simpl. eauto.
    + erewrite run_query_ok; [|done|].
      2:{ simpl. by rewrite select_user_unique. }
      cbv beta iota. rewrite Hcmp. simpl. eauto.
Qed.

Lemma login_token_witness :
  let compareSync := λ pw hash : jsstring, bool_decide (hash = js "$2a$10$" ++ pw) in
  let u := UserRow 1 (js "ann") (js "ann@example.org") (js "$2a$10$secret") in
  let st := Db [u] 2 [] 1 [] 1 in
  let claims := PublicUser 1 (js "ann") (js "ann@example.org") in
  ∃ token,
    run (login (js "your_secret_key") compareSync 1000 (Some (js "ann"))
           (Some (js "secret"))) [] st =
    (Responded 200 (LoginSuccessful "Login successful" token claims), st)
    ∧ token = jwt_sign claims (js "your_secret_key") 1000
    ∧ jwt_payload token = claims
    ∧ jwt_verify token (js "your_secret_key") 1000 = Some claims.
Proof.
  intros compareSync u st claims.
  apply (login_token (js "your_secret_key") compareSync 1000 u (js "secret") [] st).
  - simpl. apply NoDup_singleton.
  - by left.
  - by vm_compute.
  - by vm_compute.
Defined.

(** ** Adds in flight together *)

Lemma run_pool_app s1 s2 p st :
  run_pool (s1 ++ s2) p st = run_pool s2 (run_pool s1 p st).1 (run_pool s1 p st).2.
Proof.
  revert p st. induction s1 as [|i s1 IH]; intros p st; [done|].
  simpl. destruct (pool_step i p st) as [p' st']. apply IH.
Qed.

Lemma pool_step_middle {R} served (q : query R) cb rest st :
  pool_step (length served) (served ++ DbQuery q cb :: rest) st =
  (served ++ cb (db_step q false st).1 :: rest, (db_step q false st).2).
Proof.
  unfold pool_step. rewrite list_lookup_middle by done.
  destruct (db_step q false st) as [a st']. simpl. f_equal.
  rewrite insert_app_r_alt by done. by rewrite Nat.sub_diag.
Qed.

(** Two turns in a row serve one add. *)
Lemma pool_add_turns served q rest st :
  acceptable st q.1 q.2 →
  run_pool (replicate 2 (length served)) (served ++ add_handler q :: rest) st =
  (served ++
   Respond 200 (ItemAdded "Item added" (inventory_auto st) (next_no (inventory st)))
   :: rest,
   add_row st (added_row st q.1 q.2)).
Proof.
  intros Hacc. pose proof Hacc as (Hn & Hk & Hu).
  unfold add_handler. rewrite add_item_unfold by done.
  cbn [replicate run_pool]. rewrite pool_step_middle.
  cbn [db_step db_exec fst snd head mjoin option_join option_bind].
  rewrite or_zero_max_no. rewrite pool_step_middle.
  unfold db_step. by rewrite insert_inventory_ok.
Qed.

Lemma acceptable_add_row st r user f :
  acceptable (add_row st r) user f ↔ acceptable st user f.
Proof. reflexivity. Qed.

Lemma serial_pool_from served reqs st :
  Forall (λ q, acceptable st q.1 q.2) reqs →
  run_pool (flat_map (λ i, replicate 2 i) (seq (length served) (length reqs)))
    (served ++ map add_handler reqs) st =
  (served ++ (add_all reqs st).1, (add_all reqs st).2).
Proof.
  revert served st. induction reqs as [|q reqs IH]; intros served st Hacc; [done|].
  apply Forall_cons in Hacc as [Hq Hacc].
  cbn [length seq flat_map map add_all fst snd].
  rewrite run_pool_app, pool_add_turns by done. cbn [fst snd].
  rewrite (cons_middle _ served), !(assoc_L (++)).
  replace (S (length served)) with (length (served ++ [Respond 200
    (ItemAdded "Item added" (inventory_auto st) (next_no (inventory st)))]))
    by (rewrite length_app; simpl; lia).
  rewrite IH; [by rewrite <- (assoc_L (++))|].
  eapply Forall_impl; [exact Hacc|]. intros q' Hq'. by apply acceptable_add_row.
Qed.

Lemma next_no_add_row rows r :
  inv_no r = next_no rows → next_no (rows ++ [r]) = next_no rows + 1.
Proof.
  intros Hr. unfold next_no at 1. rewrite max_no_snoc, Hr.
  unfold next_no. destruct (max_no rows); lia.
Qed.

Lemma numbers_after_cons base n :
  numbers_after base (S n) = (base + 1) :: numbers_after (base + 1) n.
Proof.
  unfold numbers_after. cbn [seq map]. apply (f_equal2 cons); [lia|].
  rewrite <- (seq_shift n 1), map_map. apply map_ext. intros i. lia.
Qed.

Lemma add_all_numbers reqs st :
  map inv_no (inventory (add_all reqs st).2) =
  map inv_no (inventory st) ++ numbers_after (next_no (inventory st) - 1) (length reqs).
Proof.
  revert st. induction reqs as [|q reqs IH]; intros st.
  { simpl. by rewrite app_nil_r. }
  cbn [add_all snd length]. rewrite IH. cbn [add_row with_inventory inventory].
  rewrite map_app, next_no_add_row by done. rewrite <- (assoc_L (++)). f_equal.
  rewrite numbers_after_cons. cbn [map added_row item_row inv_no app].
  apply (f_equal2 cons); [lia|]. f_equal. lia.
Qed.

Lemma add_all_answers reqs st :
  Forall2 (λ h no, ∃ id, h = Respond 200 (ItemAdded "Item added" id no))
    (add_all reqs st).1 (numbers_after (next_no (inventory st) - 1) (length reqs)).
Proof.
  revert st. induction reqs as [|q reqs IH]; intros st; [constructor|].
  cbn [add_all fst length]. rewrite numbers_after_cons. constructor.
  - exists (inventory_auto st). do 2 f_equal. lia.
  - specialize (IH (add_row st (added_row st q.1 q.2))).
    cbn [add_row with_inventory inventory] in IH.
    rewrite next_no_add_row in IH by done.
    by replace (next_no (inventory st) - 1 + 1) with (next_no (inventory st) + 1 - 1)
      by lia.
Qed.

(** The serial case: the adds one after the other get the numbers 1 to N. *)
Lemma serial_adds_numbers (reqs : list add_request) st :
  inventory st = [] →
  Forall (λ q, acceptable st q.1 q.2) reqs →
  let r := run_pool (serial_schedule 2 (length reqs)) (map add_handler reqs) st in
  map inv_no (inventory r.2) = map Z.of_nat (seq 1 (length reqs))
  ∧ Forall2 (λ h no, ∃ id, h = Respond 200 (ItemAdded "Item added" id no))
      r.1 (map Z.of_nat (seq 1 (length reqs))).
Proof.
  intros Hempty Hacc r. unfold r, serial_schedule.
  pose proof (serial_pool_from [] reqs st Hacc) as Hrun.
  change (run_pool (flat_map (λ i, replicate 2 i) (seq 0 (length reqs)))
            (map add_handler reqs) st =
          ((add_all reqs st).1, (add_all reqs st).2)) in Hrun.
  rewrite Hrun. cbn [fst snd].
  pose proof (add_all_numbers reqs st) as Hnos.
  pose proof (add_all_answers reqs st) as Hans.
  rewrite Hempty in Hnos, Hans. unfold next_no, numbers_after in Hnos, Hans.
  simpl in Hnos, Hans. split.
  - rewrite Hnos. apply map_ext. intros i. lia.
  - erewrite map_ext; [exact Hans|]. intros i. simpl. lia.
Qed.

(** *** Any interleaving: no gap *)

Lemma add_handler_lookup q st :
  truthy (nama q.2) = true → truthy (kategori q.2) = true →
  ∃ cb, add_handler q = DbQuery SelectMaxNo cb
        ∧ cb (db_step SelectMaxNo false st).1 = insert_stage (next_no (inventory st)) q
        ∧ (db_step SelectMaxNo false st).2 = st.
Proof.
  intros Hn Hk. unfold add_handler. rewrite add_item_unfold by done.
  eexists. split; [reflexivity|]. split; [|done].
  cbn [db_step db_exec fst snd head mjoin option_join option_bind].
  by rewrite or_zero_max_no.
Qed.

Lemma insert_stage_step no q st :
  truthy (nama q.2) = true → truthy (kategori q.2) = true →
  pu_id q.1 ∈ map user_id (users st) →
  ∃ k n, db_step (InsertInventory no q.2 (pu_id q.1)) false st =
         (CbOk (inventory_auto st),
          add_row st (item_row (inventory_auto st) no k n q.2 (pu_id q.1))).
Proof.
  intros (c1 & s1 & Hn)%truthy_Some (c2 & s2 & Hk)%truthy_Some Hu.
  unfold db_step. simpl. rewrite Hn, Hk. simpl.
  rewrite bool_decide_eq_true_2 by done. eauto.
Qed.

Lemma numbers_up_to_next m st : numbers_up_to m st → next_no (inventory st) = m + 1.
Proof.
  intros [[Hm _] Hnos].
  destruct (next_no_is_max_plus_one (inventory st)) as (Habove & Hone & Hmax).
  destruct (inventory st) as [|r0 rows] eqn:Hrows.
  - rewrite Hone by done. destruct (decide (m = 0)) as [->|]; [done|].
    assert (1 ∈ map inv_no (@nil inventory_row)) as Hin by (apply Hnos; lia).
    by apply elem_of_nil in Hin.
  - destruct Hmax as (r & Hr & Heq); [done|].
    assert (1 ≤ inv_no r ≤ m) as Hle.
    { apply Hnos. apply list_elem_of_In, in_map, list_elem_of_In, Hr. }
    assert (m ∈ map inv_no (r0 :: rows)) as Hin by (apply Hnos; lia).
    apply list_elem_of_In, in_map_iff in Hin as (r' & Hr' & Hin).
    apply list_elem_of_In, Habove in Hin. lia.
Qed.

Lemma numbers_up_to_add m st id no k n f uid :
  numbers_up_to m st → 1 ≤ no ≤ m + 1 →
  numbers_up_to (Z.max m no) (add_row st (item_row id no k n f uid)).
Proof.
  intros [Hm Hnos] Hno. split; simpl.
  - rewrite length_app. simpl. lia.
  - intros j. rewrite map_app, elem_of_app, Hnos. simpl.
    rewrite list_elem_of_singleton. lia.
Qed.

Lemma add_stage_weaken us m m' h : m ≤ m' → add_stage us m h → add_stage us m' h.
Proof.
  intros Hm [Hh | [(n & q & -> & Hn & Hq) | Hh]]; [by left| |by right; right].
  right; left. exists n, q. split; [done|]. split; [lia|done].
Qed.

(** One turn keeps the numbers of the catalog a range that starts at 1. *)
Lemma pool_step_numbers i p st m :
  numbers_up_to m st → Forall (add_stage (users st) m) p →
  ∃ m', numbers_up_to m' (pool_step i p st).2
        ∧ Forall (add_stage (users (pool_step i p st).2) m') (pool_step i p st).1.
Proof.
  intros Hst Hp. unfold pool_step.
  destruct (p !! i) as [h|] eqn:Hi; [|by exists m].
  pose proof (Forall_lookup_1 _ _ _ _ Hp Hi)
    as [(q & -> & Hn & Hk & Hu) | [(n & q & -> & Hno & Hn & Hk & Hu) | (code & b & ->)]].
  - destruct (add_handler_lookup q st Hn Hk) as (cb & -> & Hcb & Hsame).
    destruct (db_step SelectMaxNo false st) as [a st1]. simpl in Hcb, Hsame. subst st1.
    exists m. split; [done|]. simpl. apply Forall_insert; [done|].
    rewrite (numbers_up_to_next m st Hst) in Hcb.
    right; left. exists (m + 1), q. split; [done|].
    split; [destruct Hst as [[? ?] _]; lia|done].
  - unfold insert_stage.
    destruct (insert_stage_step n q st Hn Hk Hu) as (k & nm & ->).
    exists (Z.max m n). split; [by apply numbers_up_to_add|]. simpl.
    apply Forall_insert.
    + eapply Forall_impl; [done|]. intros h. apply add_stage_weaken. lia.
    + right; right. eauto.
  - by exists m.
Qed.

Lemma run_pool_numbers schedule p st m :
  numbers_up_to m st → Forall (add_stage (users st) m) p →
  ∃ m', numbers_up_to m' (run_pool schedule p st).2.
Proof.
  revert p st m. induction schedule as [|i schedule IH]; intros p st m Hst Hp.
  { by exists m. }
  cbn [run_pool].
  destruct (pool_step_numbers i p st m Hst Hp) as (m' & Hst' & Hp').
  destruct (pool_step i p st) as [p' st']. by eapply IH.
Qed.

(** *** All lookups before any insert: one number for all *)

Lemma lookups_first served (reqs : list add_request) st :
  Forall (λ q, acceptable st q.1 q.2) reqs →
  run_pool (seq (length served) (length reqs)) (served ++ map add_handler reqs) st =
  (served ++ map (insert_stage (next_no (inventory st))) reqs, st).
Proof.
  revert served. induction reqs as [|q reqs IH]; intros served Hacc; [done|].
  apply Forall_cons in Hacc as [(Hn & Hk & Hu) Hacc].
  cbn [length seq map run_pool].
  destruct (add_handler_lookup q st Hn Hk) as (cb & -> & Hcb & Hsame).
  rewrite pool_step_middle, Hcb, Hsame.
  rewrite (cons_middle _ served), !(assoc_L (++)).
  replace (S (length served))
    with (length (served ++ [insert_stage (next_no (inventory st)) q]))
    by (rewrite length_app; simpl; lia).
  rewrite IH by done. by rewrite <- (assoc_L (++)).
Qed.

Lemma inserts_after served (reqs : list add_request) no st :
  Forall (λ q, acceptable st q.1 q.2) reqs →
  ∃ answers st',
    run_pool (seq (length served) (length reqs))
      (served ++ map (insert_stage no) reqs) st = (served ++ answers, st')
    ∧ Forall (λ h, ∃ id, h = Respond 200 (ItemAdded "Item added" id no)) answers
    ∧ map inv_no (inventory st') =
      map inv_no (inventory st) ++ replicate (length reqs) no.
Proof.
  revert served st. induction reqs as [|q reqs IH]; intros served st Hacc.
  { exists [], st. simpl. rewrite !app_nil_r. by repeat split. }
  apply Forall_cons in Hacc as [(Hn & Hk & Hu) Hacc].
  cbn [length seq map run_pool]. unfold insert_stage at 1.
  rewrite pool_step_middle.
  destruct (insert_stage_step no q st Hn Hk Hu) as (k & nm & ->). cbn [fst snd].
  set (st1 := add_row st _).
  set (answer := Respond 200 (ItemAdded "Item added" (inventory_auto st) no)).
  destruct (IH (served ++ [answer]) st1) as (answers & st' & Hrun & Hanswers & Hnos).
  { eapply Forall_impl; [exact Hacc|]. intros q' Hq'. exact Hq'. }
  exists (answer :: answers), st'. split; [|split].
  - rewrite (cons_middle _ served), !(assoc_L (++)).
    replace (S (length served)) with (length (served ++ [answer]))
      by (rewrite length_app; simpl; lia).
    by rewrite Hrun, <- (assoc_L (++)).
  - constructor; [by exists (inventory_auto st)|done].
  - rewrite Hnos. unfold st1. simpl. rewrite map_app, <- (assoc_L (++)). done.
Qed.

(** C1, as the spec has it, fails: two adds on an empty catalog whose
    lookups both run before either insert are both answered with number 1,
    and the catalog holds the number 1 twice. *)
Lemma interleaved_adds_share_a_number :
  let st := Db [UserRow 1 (js "ann") (js "ann@example.org") (js "hash")] 2 [] 1 [] 1 in
  let ann := PublicUser 1 (js "ann") (js "ann@example.org") in
  let item := λ name, ItemFields (Some (js "IT")) None (Some (js name)) None None None
                        None None None None in
  let r := run_pool [0; 1; 0; 1]%nat
             [add_item ann (item "Laptop A"); add_item ann (item "Laptop B")] st in
  inventory st = []
  ∧ r.1 = [Respond 200 (ItemAdded "Item added" 1 1);
           Respond 200 (ItemAdded "Item added" 2 1)]
  ∧ map inv_no (inventory r.2) = [1; 1].
Proof. by vm_compute. Qed.

(** C1 amended: the handler does not serialize callers.  For N adds on an
    empty catalog, under every interleaving of their statements the numbers
    in the catalog are a range 1 to K without a gap, K being at most the
    number of items, so that a number can be held twice.  When the adds run
    one after the other, the lookup and the insert of each with no turn of
    another in between, they are answered with the numbers 1 to N in order
    and the catalog holds exactly these numbers.  When the lookups of all of
    them run before any insert, every one of them is answered with the
    number 1. *)
Theorem adds_on_empty_catalog (reqs : list add_request) st :
  inventory st = [] →
  Forall (λ q, acceptable st q.1 q.2) reqs →
  let pool := map add_handler reqs in
  let N := length reqs in
  (∀ schedule,
     ∃ K, 0 ≤ K ≤ Z.of_nat (length (inventory (run_pool schedule pool st).2))
          ∧ ∀ n, n ∈ map inv_no (inventory (run_pool schedule pool st).2) ↔ 1 ≤ n ≤ K)
  ∧ (let r := run_pool (serial_schedule 2 N) pool st in
     map inv_no (inventory r.2) = map Z.of_nat (seq 1 N)
     ∧ Forall2 (λ h no, ∃ id, h = Respond 200 (ItemAdded "Item added" id no))
         r.1 (map Z.of_nat (seq 1 N)))
  ∧ (let r := run_pool (seq 0 N ++ seq 0 N) pool st in
     map inv_no (inventory r.2) = replicate N 1
     ∧ length r.1 = N
     ∧ Forall (λ h, ∃ id, h = Respond 200 (ItemAdded "Item added" id 1)) r.1).
Proof.
  intros Hempty Hacc pool N. split; [|split].
  - intros schedule.
    destruct (run_pool_numbers schedule pool st 0) as (K & HK).
    + split; [rewrite Hempty; simpl; lia|]. intros k. rewrite Hempty. simpl.
      split; [by intros ?%elem_of_nil|lia].
    + unfold pool. apply Forall_forall. intros h Hh.
      apply list_elem_of_In, in_map_iff in Hh as (q & <- & Hq).
      apply list_elem_of_In in Hq. eapply Forall_forall in Hacc; [|done].
      destruct Hacc as (Hn & Hk & Hu). left. by exists q.
    + exists K. exact HK.
  - by apply serial_adds_numbers.
  - rewrite run_pool_app. unfold pool, N.
    pose proof (lookups_first [] reqs st Hacc) as Hfirst.
    change (run_pool (seq 0 (length reqs)) (map add_handler reqs) st =
            (map (insert_stage (next_no (inventory st))) reqs, st)) in Hfirst.
    rewrite Hfirst. cbn [fst snd].
    destruct (inserts_after [] reqs (next_no (inventory st)) st Hacc)
      as (answers & st' & Hrun & Hanswers & Hnos).
    change (run_pool (seq 0 (length reqs))
              (map (insert_stage (next_no (inventory st))) reqs) st = (answers, st'))
      in Hrun.
    assert (length answers = length reqs) as Hlen.
    { clear -Hrun. revert Hrun. generalize (seq 0 (length reqs)).
      intros schedule Hrun.
      assert (∀ schedule p st, length (run_pool schedule p st).1 = length p) as Hkeep.
      { clear. induction schedule as [|i schedule IH]; intros p st; [done|].
        cbn [run_pool]. destruct (pool_step i p st) as [p' st'] eqn:Hstep.
        rewrite IH. unfold pool_step in Hstep.
        destruct (p !! i) as [[]|]; try (by injection Hstep as <- _).
        destruct (db_step _ _ _). injection Hstep as <- _. apply length_insert. }
      specialize (Hkeep schedule (map (insert_stage (next_no (inventory st))) reqs) st).
      rewrite Hrun in Hkeep. simpl in Hkeep. by rewrite Hkeep, length_map. }
    rewrite Hrun. cbn [fst snd]. rewrite Hnos, Hempty. unfold next_no in *.
    rewrite Hempty in Hanswers. simpl in Hanswers. by simpl.
Qed.

Lemma adds_on_empty_catalog_witness :
  let st := Db [UserRow 1 (js "ann") (js "ann@example.org") (js "hash")] 2 [] 1 [] 1 in
  let ann := PublicUser 1 (js "ann") (js "ann@example.org") in
  let item := λ name, ItemFields (Some (js "IT")) None (Some (js name)) None None None
                        None None None None in
  let reqs := [(ann, item "Laptop A"); (ann, item "Laptop B"); (ann, item "Desk")] in
  let pool := map add_handler reqs in
  (∃ K, 0 ≤ K ≤ Z.of_nat (length (inventory (run_pool [0; 1; 1; 2; 0; 2]%nat pool st).2))
        ∧ ∀ n, n ∈ map inv_no (inventory (run_pool [0; 1; 1; 2; 0; 2]%nat pool st).2)
               ↔ 1 ≤ n ≤ K)
  ∧ (let r := run_pool [0; 0; 1; 1; 2; 2]%nat pool st in
     map inv_no (inventory r.2) = [1; 2; 3]
     ∧ Forall2 (λ h no, ∃ id, h = Respond 200 (ItemAdded "Item added" id no))
         r.1 [1; 2; 3])
  ∧ (let r := run_pool [0; 1; 2; 0; 1; 2]%nat pool st in
     map inv_no (inventory r.2) = [1; 1; 1]
     ∧ length r.1 = 3%nat
     ∧ Forall (λ h, ∃ id, h = Respond 200 (ItemAdded "Item added" id 1)) r.1).
Proof.
  intros st ann item reqs pool.
  assert (Forall (λ q, acceptable st q.1 q.2) reqs) as Hacc.
  { repeat constructor; by apply (bool_decide_unpack _). }
  destruct (adds_on_empty_catalog reqs st eq_refl Hacc) as (Hany & Hserial & Hfirst).
  split; [exact (Hany [0; 1; 1; 2; 0; 2]%nat)|]. split; [exact Hserial|exact Hfirst].
Defined.

(** ** Statistics *)

Lemma or_zero_of_nat n : or_zero (Some (Z.of_nat n)) = Z.of_nat n.
Proof. unfold or_zero. destruct (Z.eqb_spec (Z.of_nat n) 0); lia. Qed.

Lemma get_stats_run st :
  run get_stats [] st =
  (Responded 200
     (Statistics
        (Stats (Z.of_nat (length (inventory st)))
           (status_object (group_count (map inv_status (inventory st))))
           (category_object (group_count (map inv_kategori (inventory st)))))),
   st).
Proof.
  unfold get_stats.
  erewrite run_query_ok; [|done|reflexivity]. cbn [head]. rewrite or_zero_of_nat.
  erewrite run_query_ok; [|done|reflexivity].
  erewrite run_query_ok; [|done|reflexivity].
  reflexivity.
Qed.

Lemma list_items_run st :
  run list_items [] st =
  (Responded 200 (Items (map view (merge_sort no_le (inventory st)))), st).
Proof. reflexivity. Qed.

(** The total of the statistics is the number of items the list returns,
    in every state of the tables. *)
Lemma stats_total_counts_list st :
  ∃ s items,
    run get_stats [] st = (Responded 200 (Statistics s), st)
    ∧ run list_items [] st = (Responded 200 (Items items), st)
    ∧ total s = Z.of_nat (length items).
Proof.
  eexists _, _. split; [apply get_stats_run|]. split; [apply list_items_run|].
  simpl. by rewrite length_map, merge_sort_Permutation.
Qed.

(** C6 at a state where it fails: one user registers and adds two items,
    the first without a status and in category "IT", the second with the
    status "null" and in category "__proto__".  The statistics count 2
    items, as many as the list returns, but the group of the status NULL and
    the group of the status "null" land on the same key "null" of
    [byStatus], and the count of "__proto__" is never stored in
    [byCategory]: both sums are 1. *)
Theorem stats_sums_lose_groups secret hashSync compareSync :
  let ann := PublicUser 1 (js "ann") (js "ann@example.org") in
  let token := Some (jwt_sign ann secret 0) in
  let item1 := ItemFields (Some (js "IT")) None (Some (js "Laptop A")) None None None
                 None None None None in
  let item2 := ItemFields (Some (js "__proto__")) None (Some (js "Laptop B")) None None
                 None None (Some (js "null")) None None in
  let st1 := (run (app secret hashSync compareSync
                     (PostRegister (js "salt") (Some (js "ann"))
                        (Some (js "ann@example.org")) (Some (js "secret"))))
                [] empty_db).2 in
  let st2 := (run (app secret hashSync compareSync (PostInventory token 1 item1))
                [] st1).2 in
  let st3 := (run (app secret hashSync compareSync (PostInventory token 2 item2))
                [] st2).2 in
  reachable secret hashSync compareSync st3
  ∧ ∃ s items,
      run (app secret hashSync compareSync (GetStats token 3)) [] st3 =
      (Responded 200 (Statistics s), st3)
      ∧ run (app secret hashSync compareSync (GetInventory token 3)) [] st3 =
        (Responded 200 (Items items), st3)
      ∧ length items = 2%nat
      ∧ total s = 2
      ∧ sum_values (byStatus s) = 1
      ∧ sum_values (byCategory s) = 1.
Proof.
  intros ann token item1 item2 st1 st2 st3. split.
  { do 3 apply reachable_run. apply reachable_empty. }
  assert (∀ t next, t < 86400 →
            authenticateToken secret token t next = next ann) as Hauth.
  { intros t next Ht. unfold authenticateToken, token.
    by rewrite jwt_verify_sign by lia. }
  assert (st3 =
          Db [UserRow 1 (js "ann") (js "ann@example.org")
                (hashSync (js "secret") 10 (js "salt"))] 2 [] 1
             [InventoryRow 1 1 (js "IT") None (js "Laptop A") None None None None None
                None None 1;
              InventoryRow 2 2 (js "__proto__") None (js "Laptop B") None None None
                None (Some (js "null")) None None 1] 3) as ->.
  { unfold st3, st2, st1. cbn [app]. rewrite !Hauth by lia. by vm_compute. }
  cbn [app]. rewrite !Hauth by lia. rewrite get_stats_run, list_items_run.
  eexists _, _. split; [reflexivity|]. split; [reflexivity|].
  by vm_compute.
Qed.

(** *** Where no two groups share a key *)

Section Groups.
Context {K : Type} `{EqDecision K}.

Lemma bump_keys (k : K) groups :
  map fst (bump k groups) =
  if decide (k ∈ map fst groups) then map fst groups else map fst groups ++ [k].
Proof.
  induction groups as [|[k' n] groups IH]; cbn [bump map fst].
  { destruct (decide (k ∈ [])) as [Hin|]; [by apply elem_of_nil in Hin|done]. }
  destruct (decide (k = k')) as [->|Hne]; cbn [map fst].
  { destruct (decide (k' ∈ k' :: map fst groups)) as [|Hnin]; [done|].
    exfalso. apply Hnin. left. }
  rewrite IH. destruct (decide (k ∈ map fst groups)) as [Hin|Hnin].
  - destruct (decide (k ∈ k' :: map fst groups)) as [|Hnin]; [done|].
    exfalso. apply Hnin. by right.
  - destruct (decide (k ∈ k' :: map fst groups)) as [Hin|]; [|done].
    by apply elem_of_cons in Hin as [?|?].
Qed.

Lemma bump_sum (k : K) groups : sum_counts (bump k groups) = sum_counts groups + 1.
Proof.
  induction groups as [|[k' n] groups IH]; simpl; [done|].
  destruct (decide (k = k')); simpl; [|rewrite IH]; lia.
Qed.

Lemma group_from_keys (col : list K) groups :
  NoDup (map fst groups) →
  NoDup (map fst (foldl (λ groups k, bump k groups) groups col))
  ∧ (∀ k, k ∈ map fst (foldl (λ groups k, bump k groups) groups col) →
          k ∈ map fst groups ∨ k ∈ col)
  ∧ sum_counts (foldl (λ groups k, bump k groups) groups col) =
    sum_counts groups + Z.of_nat (length col).
Proof.
  revert groups. induction col as [|k col IH]; intros groups Hnd; simpl.
  { split; [done|]. split; [auto|lia]. }
  assert (NoDup (map fst (bump k groups))) as Hnd'.
  { rewrite bump_keys. destruct (decide (k ∈ map fst groups)) as [|Hnin]; [done|].
    apply NoDup_app. split; [done|]. split; [|apply NoDup_singleton].
    intros x Hx Hx'. apply list_elem_of_singleton in Hx' as ->. done. }
  destruct (IH _ Hnd') as (Hkeys & Hsub & Hsum). split; [done|]. split.
  - intros k' Hk'. destruct (Hsub k' Hk') as [Hin|Hin]; [|right; by right].
    rewrite bump_keys in Hin.
    destruct (decide (k ∈ map fst groups)); [by left|].
    apply elem_of_app in Hin as [?|Hin]; [by left|].
    apply list_elem_of_singleton in Hin as ->. right; left.
  - rewrite Hsum, bump_sum. lia.
Qed.

(** The rows of a GROUP BY have distinct values, all from the column, and
    their counts add up to the number of rows of the table. *)
Lemma group_count_rows (col : list K) :
  NoDup (map fst (group_count col))
  ∧ (∀ k, k ∈ map fst (group_count col) → k ∈ col)
  ∧ sum_counts (group_count col) = Z.of_nat (length col).
Proof.
  destruct (group_from_keys col []) as (Hnd & Hsub & Hsum); [constructor|].
  split; [done|]. split; [|done].
  intros k Hk. destruct (Hsub k Hk) as [Hin|]; [|done]. by apply elem_of_nil in Hin.
Qed.
End Groups.

Lemma sum_values_insert (obj : gmap jsstring Z) k n :
  obj !! k = None → sum_values (<[k := n]> obj) = n + sum_values obj.
Proof.
  intros Hk. unfold sum_values.
  rewrite map_fold_insert_L; [done| |done]. intros; lia.
Qed.

(** Distinct keys other than ["__proto__"] each add their count. *)
Lemma category_object_sum (groups : list (jsstring * Z)) (obj : gmap jsstring Z) :
  NoDup (map fst groups) →
  js "__proto__" ∉ map fst groups →
  (∀ k, k ∈ map fst groups → obj !! k = None) →
  sum_values (foldl (λ acc item, js_set acc item.1 item.2) obj groups) =
  sum_values obj + sum_counts groups.
Proof.
  revert obj. induction groups as [|[k n] groups IH]; intros obj Hnd Hproto Hfresh;
    simpl; [lia|].
  apply NoDup_cons in Hnd as [Hk Hnd].
  apply not_elem_of_cons in Hproto as [Hne Hproto].
  unfold js_set at 2. rewrite decide_False by done.
  rewrite IH; [|done|done|].
  - rewrite sum_values_insert; [lia|]. apply Hfresh. left.
  - intros k' Hk'. rewrite lookup_insert_ne; [apply Hfresh; by right|].
    intros ->. done.
Qed.

Lemma status_object_as_category (groups : list (option jsstring * Z)) :
  status_object groups = category_object (map (λ item, (prop_key item.1, item.2)) groups).
Proof.
  unfold status_object, category_object. generalize (∅ : gmap jsstring Z).
  induction groups as [|item groups IH]; intros obj; [done|]. simpl. apply IH.
Qed.

Lemma sum_counts_prop_key (groups : list (option jsstring * Z)) :
  sum_counts (map (λ item, (prop_key item.1, item.2)) groups) = sum_counts groups.
Proof. induction groups as [|item groups IH]; simpl; [done|]. by rewrite IH. Qed.

(** Where no two groups share a key and no key is ["__proto__"], both
    objects of the statistics add up to the total. *)
Theorem stats_sums_without_clash st s :
  ¬ key_clash st →
  (run get_stats [] st).1 = Responded 200 (Statistics s) →
  sum_values (byStatus s) = total s ∧ sum_values (byCategory s) = total s.
Proof.
  intros Hclash Hrun. rewrite get_stats_run in Hrun. injection Hrun as <-. simpl.
  unfold key_clash in Hclash.
  destruct (group_count_rows (map inv_status (inventory st))) as (Hnd1 & Hsub1 & Hsum1).
  destruct (group_count_rows (map inv_kategori (inventory st))) as (Hnd2 & Hsub2 & Hsum2).
  rewrite length_map in Hsum1, Hsum2. split.
  - rewrite status_object_as_category. unfold category_object.
    rewrite category_object_sum.
    + rewrite sum_counts_prop_key, Hsum1.
      unfold sum_values. rewrite map_fold_empty. lia.
    + rewrite map_map. simpl. rewrite <- (map_map fst prop_key).
      apply (NoDup_fmap_2_strong prop_key); [|done].
      intros [x|] [y|] Hx%Hsub1 Hy%Hsub1; simpl; intros Heq; subst; try done.
      all: exfalso; apply Hclash; auto.
    + rewrite map_map. simpl. rewrite <- (map_map fst prop_key).
      intros (k & Hk & Hin%Hsub1)%list_elem_of_fmap.
      destruct k as [k|]; simpl in Hk; [|done]. subst. apply Hclash. auto.
    + intros k _. apply lookup_empty.
  - unfold category_object. rewrite category_object_sum; [|done| |].
    + rewrite Hsum2. unfold sum_values. rewrite map_fold_empty. lia.
    + intros Hin%Hsub2. apply Hclash. auto.
    + intros k _. apply lookup_empty.
Qed.

Lemma stats_sums_without_clash_witness :
  let st := Db [] 1 [] 1
              [InventoryRow 1 1 (js "IT") None (js "Laptop A") None None None None None
                 None None 1;
               InventoryRow 2 2 (js "IT") None (js "Laptop B") None None None None
                 (Some (js "Baik")) None None 1] 3 in
  let s := Stats 2 {[ js "null" := 1; js "Baik" := 1 ]} {[ js "IT" := 2 ]} in
  sum_values (byStatus s) = total s ∧ sum_values (byCategory s) = total s.
Proof.
  intros st s. apply (stats_sums_without_clash st s).
  - unfold key_clash. apply (bool_decide_unpack _). by vm_compute.
  - by vm_compute.
Defined.

(** * Further properties *)

(** ** What the statements of a handler allow to conclude *)

(** A statement the store rejects changes nothing. *)
Lemma db_exec_rejected {R} (q : query R) st err st' :
  db_exec q st = (inl err, st') → st' = st.
Proof.
  destruct q; simpl; intros Hq; repeat case_match; congruence.
Qed.

Lemma db_step_rejected {R} (q : query R) fault st err st' :
  db_step q fault st = (CbErr err, st') → st' = st.
Proof.
  unfold db_step. destruct fault; [congruence|].
  destruct (db_exec q st) as [[e|r] st1] eqn:Hq; intros [= <- <-].
  by eapply db_exec_rejected.
Qed.

Lemma db_exec_select {R} (q : query R) st : is_select R q → (db_exec q st).2 = st.
Proof. by destruct q. Qed.

(** An invariant that every statement of a handler keeps is kept by its
    run. *)
Lemma run_keeps (P : ∀ R, query R → Prop) (J : db → Prop) :
  (∀ R (q : query R) st, P R q → J st → J (db_exec q st).2) →
  ∀ h, sends P h → ∀ faults st, J st → J (run h faults st).2.
Proof.
  intros Hexec h Hh. induction Hh as [code b|e|R q cb Hq Hcb IH];
    intros faults st HJ; [done|done|].
  cbn [run]. destruct (db_step q _ st) as [a st1] eqn:Hstep. apply IH.
  unfold db_step in Hstep. destruct (default false (head faults)).
  - by injection Hstep as <- <-.
  - pose proof (Hexec R q st Hq HJ) as HJ'.
    destruct (db_exec q st) as [[err|result] st2]; by injection Hstep as <- <-.
Qed.

Lemma sends_weaken (P Q : ∀ R, query R → Prop) h :
  (∀ R q, P R q → Q R q) → sends P h → sends Q h.
Proof. intros HPQ. induction 1; constructor; auto. Qed.

Lemma sends_authenticateToken P secret token now next :
  (∀ user, sends P (next user)) → sends P (authenticateToken secret token now next).
Proof.
  intros Hnext. unfold authenticateToken. destruct token as [t|]; [|constructor].
  destruct (jwt_verify t secret now); [done|constructor].
Qed.

(** Building the proof that a handler sends only statements of a kind. *)
Ltac sends_tac :=
  repeat first
    [ apply sends_authenticateToken; intros ?
    | apply sends_respond
    | apply sends_throw
    | apply sends_query; [exact I | intros []; try done]
    | progress case_match ].

Lemma list_categories_selects : sends is_select list_categories.
Proof. unfold list_categories. sends_tac. Qed.

Lemma list_items_selects : sends is_select list_items.
Proof. unfold list_items. sends_tac. Qed.

Lemma get_stats_selects : sends is_select get_stats.
Proof. unfold get_stats. sends_tac. Qed.

Lemma login_selects secret compareSync now username password :
  sends is_select (login secret compareSync now username password).
Proof. unfold login. sends_tac. Qed.

(** X1: the three listing routes and the login never change a table,
    whatever the token, the time and the failures of the store. *)
Theorem reads_change_nothing secret hashSync compareSync req faults st :
  match req with
  | PostLogin _ _ _ | GetCategories _ _ | GetInventory _ _ | GetStats _ _ => True
  | _ => False
  end →
  (run (app secret hashSync compareSync req) faults st).2 = st.
Proof.
  intros Hreq.
  apply (run_keeps is_select (λ st', st' = st)); [| |done].
  - intros R q st' Hq ->. by apply db_exec_select.
  - destruct req; try done; cbn [app].
    + apply login_selects.
    + apply sends_authenticateToken. intros _. apply list_categories_selects.
    + apply sends_authenticateToken. intros _. apply list_items_selects.
    + apply sends_authenticateToken. intros _. apply get_stats_selects.
Qed.

Lemma reads_change_nothing_witness :
  let st := Db [UserRow 1 (js "ann") (js "ann@example.org") (js "hash")] 2 [] 1
              [InventoryRow 1 1 (js "IT") None (js "Laptop A") None None None None None
                 None None 1] 2 in
  let token := Some (jwt_sign (PublicUser 1 (js "ann") (js "ann@example.org"))
                       (js "your_secret_key") 0) in
  (run (app (js "your_secret_key") (λ pw _ salt, salt ++ pw) (λ _ _, true)
          (GetStats token 10)) [false; true] st).2 = st.
Proof.
  intros st token.
  by apply (reads_change_nothing (js "your_secret_key") (λ pw _ salt, salt ++ pw)
              (λ _ _, true) (GetStats token 10) [false; true] st).
Defined.

(** ** The token of a protected route *)

Lemma app_protected secret hashSync compareSync req token now :
  request_token req = Some (token, now) →
  ∃ next, app secret hashSync compareSync req = authenticateToken secret token now next.
Proof. destruct req; simpl; intros [= <- <-]; eauto. Qed.

(** X2: a protected route without a token answers 401, one whose token
    does not verify answers 403, and in both cases no statement reaches the
    store: the tables are as they were. *)
Theorem protected_routes_need_token secret hashSync compareSync req token now faults st :
  request_token req = Some (token, now) →
  match token with
  | None => True
  | Some t => jwt_verify t secret now = None
  end →
  run (app secret hashSync compareSync req) faults st =
  (Responded (match token with Some _ => 403 | None => 401 end) StatusText, st).
Proof.
  intros Hreq Htoken.
  destruct (app_protected secret hashSync compareSync req token now Hreq) as [next ->].
  unfold authenticateToken. destruct token as [t|]; [|done]. by rewrite Htoken.
Qed.

Lemma protected_routes_need_token_witness :
  let st := Db [] 1 [CategoryRow 1 (js "IT")] 2 [] 1 in
  let forged := jwt_sign (PublicUser 1 (js "ann") (js "ann@example.org")) (js "guess") 0 in
  run (app (js "your_secret_key") (λ pw _ salt, salt ++ pw) (λ _ _, true)
         (DeleteCategoryByName (Some forged) 10 (js "IT"))) [] st =
  (Responded 403 StatusText, st).
Proof.
  intros st forged.
  by apply (protected_routes_need_token (js "your_secret_key") (λ pw _ salt, salt ++ pw)
              (λ _ _, true) (DeleteCategoryByName (Some forged) 10 (js "IT"))
              (Some forged) 10 [] st).
Defined.

(** X3: the token a login issues at time [now] lets a request through to
    its handler, with the identity it embeds, at every time before
    [now + 86400] seconds and is answered 403 from then on; under another
    key than the one it was signed with it is answered 403 at any time. *)
Theorem login_token_lifetime secret key claims now t next :
  authenticateToken key (Some (jwt_sign claims secret now)) t next =
  if decide (secret = key ∧ t < now + 86400) then next claims
  else Respond 403 StatusText.
Proof.
  unfold authenticateToken, jwt_verify, jwt_sign. simpl.
  destruct (decide (secret = key)) as [->|Hkey].
  - destruct (decide (t < now + 86400)).
    + by rewrite decide_True.
    + rewrite decide_False; [done|]. by intros [_ ?].
  - rewrite decide_False; [done|]. by intros [? _].
Qed.

(** *** The header *)

Lemma split_space_no_space (s : jsstring) : 32%N ∉ s → split_space s = [s].
Proof.
  induction s as [|c s IH]; [done|]. intros Hs.
  apply not_elem_of_cons in Hs as [Hc Hs]. simpl.
  destruct (N.eqb_spec c 32); [congruence|]. by rewrite IH.
Qed.

Lemma split_space_cons (s : jsstring) :
  ∃ piece pieces, split_space s = piece :: pieces.
Proof.
  destruct s as [|c s]; simpl; [eauto|].
  destruct (c =? 32)%N; [eauto|]. destruct (split_space s); eauto.
Qed.

Lemma split_space_app (s t : jsstring) :
  32%N ∉ s → split_space (s ++ 32%N :: t) = s :: split_space t.
Proof.
  induction s as [|c s IH]; [done|]. intros Hs.
  apply not_elem_of_cons in Hs as [Hc Hs]. simpl.
  destruct (N.eqb_spec c 32); [congruence|]. by rewrite IH.
Qed.

(** The token is the second piece of the header between single spaces. *)
Lemma header_token_pieces (scheme token rest : jsstring) :
  32%N ∉ scheme → 32%N ∉ token → token ≠ [] →
  header_token (Some (scheme ++ 32%N :: token)) = Some token
  ∧ header_token (Some (scheme ++ 32%N :: token ++ 32%N :: rest)) = Some token
  ∧ header_token (Some scheme) = None.
Proof.
  intros Hscheme Htoken Hne. unfold header_token. repeat split.
  - destruct (scheme ++ 32%N :: token) as [|c h] eqn:Eh.
    { by destruct scheme. }
    rewrite <- Eh, split_space_app, split_space_no_space by done. simpl.
    by destruct token.
  - destruct (scheme ++ 32%N :: token ++ 32%N :: rest) as [|c h] eqn:Eh.
    { by destruct scheme. }
    rewrite <- Eh, split_space_app, split_space_app by done. simpl.
    by destruct token.
  - destruct scheme as [|c h]; [done|]. by rewrite split_space_no_space.
Qed.

(** X4: from the header on, the token is the second piece between single
    spaces, whatever the first piece is: the scheme is never compared with
    "Bearer", and what follows a further space is dropped.  A header that is
    one piece, like no header at all, is answered 401; a second piece that
    is no token is answered 403. *)
Theorem authenticate_header_ignores_scheme secret jwt_decode scheme token rest now next :
  32%N ∉ scheme → 32%N ∉ token → token ≠ [] →
  let through :=
    match jwt_decode token with
    | None => Respond 403 StatusText
    | Some t => authenticateToken secret (Some t) now next
    end in
  authenticateHeader secret jwt_decode (Some (scheme ++ 32%N :: token)) now next = through
  ∧ authenticateHeader secret jwt_decode
      (Some (scheme ++ 32%N :: token ++ 32%N :: rest)) now next = through
  ∧ authenticateHeader secret jwt_decode (Some scheme) now next = Respond 401 StatusText
  ∧ authenticateHeader secret jwt_decode None now next = Respond 401 StatusText.
Proof.
  intros Hscheme Htoken Hne through. unfold authenticateHeader.
  destruct (header_token_pieces scheme token rest Hscheme Htoken Hne) as (-> & -> & ->).
  done.
Qed.

Lemma authenticate_header_ignores_scheme_witness :
  let decode := λ s : jsstring,
    if decide (s = js "abc.def.ghi")
    then Some (jwt_sign (PublicUser 1 (js "ann") (js "ann@example.org"))
                 (js "your_secret_key") 0)
    else None in
  authenticateHeader (js "your_secret_key") decode (Some (js "Basic abc.def.ghi")) 10
    (λ _, list_categories) = list_categories
  ∧ authenticateHeader (js "your_secret_key") decode
      (Some (js "Basic abc.def.ghi and more")) 10 (λ _, list_categories) = list_categories
  ∧ authenticateHeader (js "your_secret_key") decode (Some (js "Basic")) 10
      (λ _, list_categories) = Respond 401 StatusText
  ∧ authenticateHeader (js "your_secret_key") decode None 10
      (λ _, list_categories) = Respond 401 StatusText.
Proof.
  intros decode.
  apply (authenticate_header_ignores_scheme (js "your_secret_key") decode (js "Basic")
           (js "abc.def.ghi") (js "and more") 10 (λ _, list_categories));
    by apply (bool_decide_unpack _).
Defined.

(** ** The constraints of the schema *)

Lemma NoDup_snoc {A} (l : list A) x : NoDup l → x ∉ l → NoDup (l ++ [x]).
Proof.
  intros Hl Hx. apply NoDup_app. split; [done|]. split; [|apply NoDup_singleton].
  intros y Hy Hy'. apply list_elem_of_singleton in Hy' as ->. done.
Qed.

Lemma NoDup_map_filter {A B} (f : A → B) (P : A → Prop) `{∀ x, Decision (P x)}
    (l : list A) :
  NoDup (map f l) → NoDup (map f (filter P l)).
Proof.
  induction l as [|x l IH]; [done|]. simpl. intros [Hx Hl]%NoDup_cons.
  rewrite filter_cons. destruct (decide (P x)); [|by apply IH].
  simpl. apply NoDup_cons. split; [|by apply IH].
  intros Hin. apply Hx. apply list_elem_of_In, in_map_iff in Hin as (y & <- & Hy).
  apply list_elem_of_In, list_elem_of_filter in Hy as [_ Hy].
  apply list_elem_of_In, in_map, list_elem_of_In, Hy.
Qed.

Lemma Forall_filter_keep {A} (Q : A → Prop) (P : A → Prop) `{∀ x, Decision (P x)}
    (l : list A) :
  Forall Q l → Forall Q (filter P l).
Proof.
  intros Hl. apply Forall_forall. intros x [_ Hx]%list_elem_of_filter.
  by eapply Forall_forall in Hl.
Qed.

(** Renaming [old] to a name the registry does not hold, or to itself, or
    renaming a name the registry does not hold, keeps the names distinct. *)
Lemma renamed_names_unique new old (names : list jsstring) :
  NoDup names → new ∉ names ∨ new = old ∨ old ∉ names →
  NoDup (map (λ n, if decide (n = old) then new else n) names).
Proof.
  intros Hnd [Hnew | [-> | Hold]].
  - induction names as [|n names IH]; [constructor|].
    apply NoDup_cons in Hnd as [Hn Hnd].
    apply not_elem_of_cons in Hnew as [Hne Hnew].
    simpl. apply NoDup_cons. split; [|by apply IH].
    intros Hin. apply list_elem_of_In, in_map_iff in Hin as (m & Hm & Hin).
    apply list_elem_of_In in Hin.
    destruct (decide (n = old)) as [->|], (decide (m = old)) as [->|];
      subst; try done.
  - erewrite map_ext; [by rewrite map_id|].
    intros n. by destruct (decide (n = old)) as [->|].
  - erewrite map_ext_in; [by rewrite map_id|].
    intros n Hn%list_elem_of_In. destruct (decide (n = old)) as [->|]; done.
Qed.

Lemma relabelled_ids new old rows :
  map inv_id (map (relabel_row new old) rows) = map inv_id rows.
Proof.
  rewrite map_map. apply map_ext. intros r. unfold relabel_row. by destruct (decide _).
Qed.

Lemma set_fields_ids k n f id rows :
  map inv_id (map (set_fields k n f id) rows) = map inv_id rows.
Proof.
  rewrite map_map. apply map_ext. intros r. unfold set_fields. by destruct (decide _).
Qed.

Lemma Forall_map_same {A} (Q : A → Prop) (g : A → A) (l : list A) :
  (∀ x, Q x → Q (g x)) → Forall Q l → Forall Q (map g l).
Proof.
  intros Hg Hl. induction Hl; simpl; constructor; auto.
Qed.

Lemma fresh_id {A} (f : A → Z) (auto : Z) (l : list A) :
  Forall (λ x, f x < auto) l → auto ∉ map f l.
Proof.
  intros Hl Hin. apply list_elem_of_In, in_map_iff in Hin as (x & Hx & Hin).
  apply list_elem_of_In in Hin. eapply Forall_forall in Hl; [|done]. simpl in Hl. lia.
Qed.

Lemma Forall_snoc_below {A} (f : A → Z) (auto : Z) (l : list A) y :
  Forall (λ x, f x < auto) l → f y = auto →
  Forall (λ x, f x < auto + 1) (l ++ [y]).
Proof.
  intros Hl Hy. apply Forall_app. split; [|repeat constructor; lia].
  eapply Forall_impl; [done|]. simpl. intros; lia.
Qed.

(** Every statement keeps the constraints. *)
Lemma db_exec_consistent {R} (q : query R) st :
  consistent st → consistent (db_exec q st).2.
Proof.
  intros [Hun Hem Huid Hub Hcn Hcid Hcb Hiid Hib Hcr].
  destruct q; simpl; try by constructor.
  - (* INSERT INTO users *)
    destruct username as [u|], email as [e|]; try by constructor.
    destruct (bool_decide (u ∈ _)) eqn:Hu; [by constructor|].
    destruct (bool_decide (e ∈ _)) eqn:He; [by constructor|].
    apply bool_decide_eq_false in Hu, He. simpl.
    constructor; simpl; rewrite ?map_app; simpl; try done.
    all: first
      [ by apply NoDup_snoc
      | by apply NoDup_snoc; [|apply (fresh_id user_id)]
      | by apply (Forall_snoc_below user_id)
      | eapply Forall_impl; [done|]; simpl; intros r Hr; apply elem_of_app; by left ].
  - (* INSERT INTO categories *)
    destruct name as [n|]; [|by constructor].
    destruct (has_name n _) eqn:Hn; [by constructor|].
    apply has_name_false in Hn.
    constructor; simpl; rewrite ?map_app; simpl; try done.
    all: first
      [ by apply NoDup_snoc
      | by apply NoDup_snoc; [|apply (fresh_id category_id)]
      | by apply (Forall_snoc_below category_id) ].
  - (* UPDATE categories *)
    destruct (has_name old _ && has_name new _ && negb _) eqn:Hclash;
      [by constructor|].
    constructor; simpl; try done.
    + rewrite renamed_names. apply renamed_names_unique; [done|].
      destruct (has_name old (categories st)) eqn:Hold;
        [|right; right; by apply has_name_false].
      destruct (has_name new (categories st)) eqn:Hnew;
        [|left; by apply has_name_false].
      right; left. simpl in Hclash. apply negb_false_iff in Hclash.
      by apply bool_decide_eq_true in Hclash.
    + by rewrite renamed_category_ids.
    + apply Forall_map_same; [|done]. intros c Hc.
      unfold rename_category_row. by destruct (decide _).
  - (* UPDATE inventory SET kategori *)
    constructor; simpl; try done.
    + by rewrite relabelled_ids.
    + apply Forall_map_same; [|done]. intros r Hr.
      unfold relabel_row. by destruct (decide _).
    + apply Forall_map_same; [|done]. intros r Hr.
      unfold relabel_row. by destruct (decide _).
  - (* DELETE FROM categories *)
    constructor; simpl; try done.
    + by apply NoDup_map_filter.
    + by apply NoDup_map_filter.
    + by apply Forall_filter_keep.
  - (* INSERT INTO inventory *)
    destruct (kategori f) as [k|], (nama f) as [n|]; try by constructor.
    case_bool_decide as Hu; [|by constructor].
    constructor; simpl; rewrite ?map_app; simpl; try done.
    all: first
      [ by apply NoDup_snoc; [|apply (fresh_id inv_id)]
      | by apply (Forall_snoc_below inv_id)
      | apply Forall_app; split; [done|]; by repeat constructor ].
  - (* UPDATE inventory SET the fields *)
    destruct (kategori f) as [k|], (nama f) as [n|];
      try (case_bool_decide; by constructor).
    constructor; simpl; try done.
    + by rewrite set_fields_ids.
    + apply Forall_map_same; [|done]. intros r Hr.
      unfold set_fields. by destruct (decide _).
    + apply Forall_map_same; [|done]. intros r Hr.
      unfold set_fields. by destruct (decide _).
  - (* DELETE FROM inventory *)
    constructor; simpl; try done.
    + by apply NoDup_map_filter.
    + by apply Forall_filter_keep.
    + by apply Forall_filter_keep.
Qed.

Lemma sends_any h : sends (λ _ _, True) h.
Proof. induction h; by constructor. Qed.

Lemma run_consistent h faults st : consistent st → consistent (run h faults st).2.
Proof.
  apply (run_keeps (λ _ _, True) consistent); [|apply sends_any].
  intros R q st' _. apply db_exec_consistent.
Qed.

(** X5: the tables the server reaches always meet the constraints of the
    schema: usernames, emails and category names are each stored once, the
    ids of every table are distinct, and every item names a stored user as
    its creator. *)
Theorem reachable_consistent secret hashSync compareSync st :
  reachable secret hashSync compareSync st → consistent st.
Proof.
  induction 1 as [|req faults st Hreach IH].
  - constructor; simpl; constructor.
  - by apply run_consistent.
Qed.

Lemma reachable_consistent_witness :
  consistent
    (run (app (js "your_secret_key") (λ pw _ salt, salt ++ pw) (λ _ _, true)
            (PostRegister (js "salt") (Some (js "ann")) (Some (js "ann@example.org"))
               (Some (js "secret")))) [] empty_db).2.
Proof.
  apply (reachable_consistent (js "your_secret_key") (λ pw _ salt, salt ++ pw)
           (λ _ _, true)).
  apply reachable_run, reachable_empty.
Defined.

(** ** The numbers of the items, one request at a time *)

Lemma next_no_above rows : Forall (λ r, inv_no r < next_no rows) rows.
Proof.
  unfold next_no. destruct (max_no rows) as [m|] eqn:Hm.
  - eapply Forall_impl; [by apply max_no_upper|]. simpl. intros; lia.
  - apply max_no_None in Hm as ->. constructor.
Qed.

Lemma next_no_fresh rows : next_no rows ∉ map inv_no rows.
Proof. apply (fresh_id inv_no), next_no_above. Qed.

Lemma next_no_positive rows : Forall (λ r, 1 ≤ inv_no r) rows → 1 ≤ next_no rows.
Proof.
  intros Hrows. unfold next_no. destruct (max_no rows) as [m|] eqn:Hm; [|done].
  apply max_no_attained, list_elem_of_In, in_map_iff in Hm as (r & <- & Hr).
  apply list_elem_of_In in Hr. eapply Forall_forall in Hrows; [|done]. simpl in Hrows. lia.
Qed.

Lemma relabelled_nos new old rows :
  map inv_no (map (relabel_row new old) rows) = map inv_no rows.
Proof.
  rewrite map_map. apply map_ext. intros r. unfold relabel_row. by destruct (decide _).
Qed.

Lemma set_fields_nos k n f id rows :
  map inv_no (map (set_fields k n f id) rows) = map inv_no rows.
Proof.
  rewrite map_map. apply map_ext. intros r. unfold set_fields. by destruct (decide _).
Qed.

Lemma Forall_of_map {A B} (Q : B → Prop) (f : A → B) (l l' : list A) :
  map f l' = map f l → Forall (λ x, Q (f x)) l → Forall (λ x, Q (f x)) l'.
Proof.
  intros Hmap Hl. apply Forall_fmap. apply Forall_fmap in Hl.
  change (Forall Q (map f l')). by rewrite Hmap.
Qed.

(** Every statement but the insert of an item keeps the numbers. *)
Lemma db_exec_numbered {R} (q : query R) st :
  not_insert_inventory R q → numbered st → numbered (db_exec q st).2.
Proof.
  intros Hq [Hnd Hpos]. destruct q; simpl; try done.
  - by repeat case_match.
  - by repeat case_match.
  - by repeat case_match.
  - split; simpl; [by rewrite relabelled_nos|].
    eapply (Forall_of_map (λ n, 1 ≤ n) inv_no); [apply relabelled_nos|done].
  - repeat case_match; try done.
    split; simpl; [by rewrite set_fields_nos|].
    eapply (Forall_of_map (λ n, 1 ≤ n) inv_no); [apply set_fields_nos|done].
  - split; simpl; [by apply NoDup_map_filter|by apply Forall_filter_keep].
Qed.

Lemma add_row_numbered st id k n f uid :
  numbered st → numbered (add_row st (item_row id (next_no (inventory st)) k n f uid)).
Proof.
  intros [Hnd Hpos]. split; simpl; rewrite ?map_app; simpl.
  - apply NoDup_snoc; [done|apply next_no_fresh].
  - apply Forall_app. split; [done|]. repeat constructor. simpl.
    by apply next_no_positive.
Qed.

Lemma add_item_numbered user f faults st :
  numbered st → numbered (run (add_item user f) faults st).2.
Proof.
  intros Hst.
  destruct (truthy (nama f)) eqn:Hn; [|by rewrite add_item_rejects by auto].
  destruct (truthy (kategori f)) eqn:Hk; [|by rewrite add_item_rejects by auto].
  rewrite add_item_run by done. destruct (default false (head faults)); [done|].
  destruct (insert_inventory_step (next_no (inventory st)) f (pu_id user)
              (default false (head (tail faults))) st)
    as [(k & n & _ & _ & ->) | (err & ->)]; [|done].
  by apply add_row_numbered.
Qed.

Lemma register_no_insert hashSync salt username email password :
  sends not_insert_inventory (register hashSync salt username email password).
Proof. unfold register. sends_tac. Qed.

Lemma app_numbered secret hashSync compareSync req faults st :
  numbered st → numbered (run (app secret hashSync compareSync req) faults st).2.
Proof.
  intros Hst.
  assert (∀ h, sends not_insert_inventory h → numbered (run h faults st).2) as Hkeep.
  { intros h Hh. apply (run_keeps not_insert_inventory numbered); [|done|done].
    intros R q st'. apply db_exec_numbered. }
  assert (∀ h, sends is_select h → sends not_insert_inventory h) as Hsel.
  { intros h. apply sends_weaken. by intros R []. }
  destruct req; cbn [app].
  - apply Hkeep, register_no_insert.
  - apply Hkeep, Hsel, login_selects.
  - apply Hkeep, sends_authenticateToken. intros _. apply Hsel, list_categories_selects.
  - apply Hkeep, sends_authenticateToken. intros _. unfold add_category. sends_tac.
  - apply Hkeep, sends_authenticateToken. intros _. unfold rename_category. sends_tac.
  - apply Hkeep, sends_authenticateToken. intros _. unfold delete_category. sends_tac.
  - apply Hkeep, sends_authenticateToken. intros _. apply Hsel, list_items_selects.
  - unfold authenticateToken. destruct token as [t|]; [|done].
    destruct (jwt_verify t secret now); [|done]. by apply add_item_numbered.
  - apply Hkeep, sends_authenticateToken. intros _. unfold update_item. sends_tac.
  - apply Hkeep, sends_authenticateToken. intros _. unfold delete_item. sends_tac.
  - apply Hkeep, sends_authenticateToken. intros _. apply Hsel, get_stats_selects.
Qed.

(** X6: as long as the requests are served one at a time, whatever they
    are and whatever the store fails, no two items of the catalog share a
    number and every number is at least 1. *)
Theorem reachable_numbered secret hashSync compareSync st :
  reachable secret hashSync compareSync st → numbered st.
Proof.
  induction 1 as [|req faults st Hreach IH].
  - split; constructor.
  - by apply app_numbered.
Qed.

Lemma reachable_numbered_witness :
  let token := Some (jwt_sign (PublicUser 1 (js "ann") (js "ann@example.org"))
                       (js "your_secret_key") 0) in
  let item := ItemFields (Some (js "IT")) None (Some (js "Laptop A")) None None None
                None None None None in
  let serve := λ req st,
    (run (app (js "your_secret_key") (λ pw _ salt, salt ++ pw) (λ _ _, true) req) [] st).2 in
  numbered
    (serve (PostInventory token 2 item)
       (serve (PostInventory token 1 item)
          (serve (PostRegister (js "salt") (Some (js "ann")) (Some (js "ann@example.org"))
                    (Some (js "secret"))) empty_db))).
Proof.
  intros token item serve.
  apply (reachable_numbered (js "your_secret_key") (λ pw _ salt, salt ++ pw)
           (λ _ _, true)).
  do 3 apply reachable_run. apply reachable_empty.
Defined.

(** ** Requests that fail *)

Lemma run_settled o faults st : run (settled o) faults st = (o, st).
Proof. by destruct o. Qed.

Lemma writes_last_failed h faults st :
  writes_last h → failed (run h faults st).1 → (run h faults st).2 = st.
Proof.
  intros Hh. revert faults st.
  induction Hh as [code b|e|R q cb Hq Hcb IH|R q cb Herr Hok]; intros faults st;
    [done|done| |].
  - cbn [run]. destruct (db_step q _ st) as [a st1] eqn:Hstep.
    assert (st1 = st) as ->; [|apply IH].
    unfold db_step in Hstep. destruct (default false (head faults));
      [by injection Hstep as <- <-|].
    pose proof (db_exec_select q st Hq) as Hsel.
    destruct (db_exec q st) as [[err|result] st2]; injection Hstep as <- <-; done.
  - cbn [run]. destruct (db_step q _ st) as [[err|result] st1] eqn:Hstep.
    + apply db_step_rejected in Hstep as ->.
      destruct (Herr err) as [o ->]. by rewrite run_settled.
    + destruct (Hok result) as (code & b & -> & Hcode). simpl. intros Hfail.
      by destruct Hfail.
Qed.

Lemma writes_last_authenticateToken secret token now next :
  (∀ user, writes_last (next user)) →
  writes_last (authenticateToken secret token now next).
Proof.
  intros Hnext. unfold authenticateToken. destruct token as [t|]; [|constructor].
  destruct (jwt_verify t secret now); [done|constructor].
Qed.

Lemma writes_last_selects h : sends is_select h → writes_last h.
Proof. induction 1; by constructor. Qed.

(** Building the proof that a handler writes last. *)
Ltac writes_last_tac :=
  repeat first
    [ apply writes_last_respond
    | apply writes_last_throw
    | apply writes_last_write;
        [ intros ?; by (eexists (Responded _ _)) || by (eexists (Uncaught _))
        | intros ?; eexists _, _; split; [reflexivity|lia] ]
    | apply writes_last_select; [exact I | intros []; try done]
    | progress case_match ].

Lemma app_writes_last secret hashSync compareSync req :
  match req with PutCategory _ _ _ _ => False | _ => True end →
  writes_last (app secret hashSync compareSync req).
Proof.
  intros Hreq. destruct req; try done; cbn [app].
  - unfold register. writes_last_tac.
  - apply writes_last_selects, login_selects.
  - apply writes_last_authenticateToken. intros _.
    apply writes_last_selects, list_categories_selects.
  - apply writes_last_authenticateToken. intros _. unfold add_category. writes_last_tac.
  - apply writes_last_authenticateToken. intros _. unfold delete_category.
    writes_last_tac.
  - apply writes_last_authenticateToken. intros _.
    apply writes_last_selects, list_items_selects.
  - apply writes_last_authenticateToken. intros user. unfold add_item. writes_last_tac.
  - apply writes_last_authenticateToken. intros _. unfold update_item. writes_last_tac.
  - apply writes_last_authenticateToken. intros _. unfold delete_item. writes_last_tac.
  - apply writes_last_authenticateToken. intros _.
    apply writes_last_selects, get_stats_selects.
Qed.

(** X7: every route but the rename of a category leaves the tables as they
    were whenever it does not answer 2xx: a request that fails, for whatever
    reason, has changed nothing. *)
Theorem failed_request_changes_nothing secret hashSync compareSync req faults st :
  match req with PutCategory _ _ _ _ => False | _ => True end →
  failed (run (app secret hashSync compareSync req) faults st).1 →
  (run (app secret hashSync compareSync req) faults st).2 = st.
Proof. intros Hreq. by apply writes_last_failed, app_writes_last. Qed.

Lemma failed_request_changes_nothing_witness :
  let st := Db [UserRow 1 (js "ann") (js "ann@example.org") (js "hash")] 2
              [CategoryRow 1 (js "IT")] 2 [] 1 in
  let token := Some (jwt_sign (PublicUser 1 (js "ann") (js "ann@example.org"))
                       (js "your_secret_key") 0) in
  (run (app (js "your_secret_key") (λ pw _ salt, salt ++ pw) (λ _ _, true)
          (PostCategory token 10 (Some (js "IT")))) [] st).2 = st.
Proof.
  intros st token.
  apply (failed_request_changes_nothing (js "your_secret_key") (λ pw _ salt, salt ++ pw)
           (λ _ _, true) (PostCategory token 10 (Some (js "IT"))) [] st).
  - exact I.
  - change (¬ (200 ≤ 400 < 300)). lia.
Defined.

(** ** Registering *)

Lemma truthy_nonempty (s : jsstring) : s ≠ [] → truthy (Some s) = true.
Proof. by destruct s. Qed.

(** The run of a registration whose three fields are non-empty. *)
Lemma register_run hashSync salt (u e p : jsstring) faults st :
  u ≠ [] → e ≠ [] → p ≠ [] →
  run (register hashSync salt (Some u) (Some e) (Some p)) faults st =
  if default false (head faults)
     || bool_decide (u ∈ map user_username (users st))
     || bool_decide (e ∈ map user_email (users st))
  then (Responded 400 (Message "Username or email already exists"), st)
  else (Responded 200 (UserRegistered "User registered successfully" (users_auto st)),
        with_users st
          (users st ++ [UserRow (users_auto st) u e (hashSync p 10 salt)])
          (users_auto st + 1)).
Proof.
  intros Hu He Hp. unfold register. destruct p as [|c p]; [done|].
  rewrite !truthy_nonempty by done. cbn [negb orb run].
  unfold db_step. destruct (default false (head faults)); [done|]. simpl.
  by destruct (bool_decide (u ∈ _) || bool_decide (e ∈ _)).
Qed.





(** X9: a registration the store fails is answered like a conflict, 400
    "Username or email already exists", also when neither the username nor
    the email is taken; nothing is stored.  One that goes through stores the
    hash [hashSync] returns, never the password it was sent. *)
Theorem register_failure_reads_as_conflict hashSync salt (u e p : jsstring) faults st :
  u ≠ [] → e ≠ [] → p ≠ [] →
  u ∉ map user_username (users st) → e ∉ map user_email (users st) →
  run (register hashSync salt (Some u) (Some e) (Some p)) (true :: faults) st =
    (Responded 400 (Message "Username or email already exists"), st)
  ∧ ∃ st', run (register hashSync salt (Some u) (Some e) (Some p)) [] st =
           (Responded 200 (UserRegistered "User registered successfully" (users_auto st)),
            st')
         ∧ map user_password (users st') =
           map user_password (users st) ++ [hashSync p 10 salt]
         ∧ categories st' = categories st ∧ inventory st' = inventory st.
Proof.
  intros Hu He Hp Hfresh Hfresh'. rewrite !register_run by done.
  cbn [head default orb]. split; [done|].
  rewrite !bool_decide_eq_false_2 by done. cbn [orb].
  eexists. split; [reflexivity|]. simpl. by rewrite map_app.
Qed.

Lemma register_failure_reads_as_conflict_witness :
  let hashSync := λ pw (_ : Z) salt, salt ++ pw in
  run (register hashSync (js "s1") (Some (js "ann")) (Some (js "ann@example.org"))
         (Some (js "secret"))) [true] empty_db =
  (Responded 400 (Message "Username or email already exists"), empty_db).
Proof.
  intros hashSync.
  apply (register_failure_reads_as_conflict hashSync (js "s1") (js "ann")
           (js "ann@example.org") (js "secret") [] empty_db);
    by apply (bool_decide_unpack _).
Defined.

(** ** Logging in, again *)

(** The run of a login whose two fields are non-empty. *)
Lemma login_run secret compareSync now (u p : jsstring) faults st :
  u ≠ [] → p ≠ [] →
  run (login secret compareSync now (Some u) (Some p)) faults st =
  (if default false (head faults) then Responded 400 (Message "User not found")
   else
     match filter (λ row, Some (user_username row) = Some u) (users st) with
     | [] => Responded 400 (Message "User not found")
     | user :: _ =>
         if compareSync p (user_password user)
         then
           let claims := PublicUser (user_id user) (user_username user) (user_email user) in
           Responded 200 (LoginSuccessful "Login successful" (jwt_sign claims secret now)
                            claims)
         else Responded 400 (Message "Invalid password")
     end,
   st).
Proof.
  intros Hu Hp. unfold login. destruct p as [|c p]; [done|].
  rewrite truthy_nonempty by done. cbn [negb run].
  unfold db_step. destruct (default false (head faults)); [done|]. simpl.
  destruct (filter _ (users st)) as [|user rows]; [done|].
  by destruct (compareSync (c :: p) (user_password user)).
Qed.

(** X10: a user who has just registered can log in with the same username
    and password, provided the comparison accepts the password against the
    hash made of it; the token embeds the id the registration returned and
    the username and email it was sent. *)
Theorem register_then_login secret hashSync compareSync salt (u e p : jsstring) now st :
  NoDup (map user_username (users st)) →
  u ≠ [] → e ≠ [] → p ≠ [] →
  u ∉ map user_username (users st) → e ∉ map user_email (users st) →
  compareSync p (hashSync p 10 salt) = true →
  let registered := run (register hashSync salt (Some u) (Some e) (Some p)) [] st in
  let claims := PublicUser (users_auto st) u e in
  registered.1 =
    Responded 200 (UserRegistered "User registered successfully" (users_auto st))
  ∧ run (login secret compareSync now (Some u) (Some p)) [] registered.2 =
    (Responded 200 (LoginSuccessful "Login successful" (jwt_sign claims secret now) claims),
     registered.2).
Proof.
  intros Hnd Hu He Hp Hfresh Hfresh' Hcmp registered claims. unfold registered.
  rewrite register_run by done. cbn [head default orb].
  rewrite !bool_decide_eq_false_2 by done. cbn [orb fst snd]. split; [done|].
  rewrite login_run by done. cbn [head default with_users users].
  set (row := UserRow (users_auto st) u e (hashSync p 10 salt)).
  change (Some u) with (Some (user_username row)).
  rewrite select_user_unique.
  - simpl. by rewrite Hcmp.
  - rewrite map_app. by apply NoDup_snoc.
  - apply elem_of_app. right. left.
Qed.

Lemma register_then_login_witness :
  let hashSync := λ pw (_ : Z) salt, salt ++ pw in
  let compareSync := λ pw hash : jsstring, bool_decide (hash = js "s1" ++ pw) in
  let registered := run (register hashSync (js "s1") (Some (js "ann"))
                           (Some (js "ann@example.org")) (Some (js "secret"))) []
                      empty_db in
  let claims := PublicUser 1 (js "ann") (js "ann@example.org") in
  registered.1 = Responded 200 (UserRegistered "User registered successfully" 1)
  ∧ run (login (js "your_secret_key") compareSync 1000 (Some (js "ann"))
           (Some (js "secret"))) [] registered.2 =
    (Responded 200 (LoginSuccessful "Login successful"
                      (jwt_sign claims (js "your_secret_key") 1000) claims),
     registered.2).
Proof.
  intros hashSync compareSync.
  apply (register_then_login (js "your_secret_key") hashSync compareSync (js "s1")
           (js "ann") (js "ann@example.org") (js "secret") 1000 empty_db);
    first [by apply (bool_decide_unpack _) | constructor | reflexivity].
Defined.

(** X11: a login under a username the table does not hold is answered 400
    "User not found"; so is a login the store fails, also for a stored user
    with the right password.  A wrong password for a stored user reads
    differently, "Invalid password". *)
Theorem login_user_not_found secret compareSync now (u p : jsstring) faults st :
  u ≠ [] → p ≠ [] →
  u ∉ map user_username (users st) ∨ head faults = Some true →
  run (login secret compareSync now (Some u) (Some p)) faults st =
  (Responded 400 (Message "User not found"), st).
Proof.
  intros Hu Hp Hcase. rewrite login_run by done.
  destruct Hcase as [Hfresh | ->]; [|done].
  destruct (default false (head faults)); [done|].
  by rewrite select_user_none.
Qed.

Lemma login_user_not_found_witness :
  let st := Db [UserRow 1 (js "ann") (js "ann@example.org") (js "hash")] 2 [] 1 [] 1 in
  run (login (js "your_secret_key") (λ _ _, true) 1000 (Some (js "bob"))
         (Some (js "secret"))) [] st =
  (Responded 400 (Message "User not found"), st).
Proof.
  intros st.
  apply (login_user_not_found (js "your_secret_key") (λ _ _, true) 1000 (js "bob")
           (js "secret") [] st); by apply (bool_decide_unpack _).
Defined.

(** ** The registry *)

(** The run of an add of a category with a non-empty name. *)
Lemma add_category_run (name : jsstring) faults st :
  name ≠ [] →
  run (add_category (Some name)) faults st =
  if default false (head faults) || has_name name (categories st)
  then (Responded 400 (Message "Category already exists"), st)
  else (Responded 200 (CategoryAdded "Category added" (categories_auto st)),
        with_categories st (categories st ++ [CategoryRow (categories_auto st) name])
          (categories_auto st + 1)).
Proof.
  intros Hname. unfold add_category. rewrite truthy_nonempty by done.
  cbn [negb run]. unfold db_step. destruct (default false (head faults)); [done|].
  simpl. by destruct (has_name name (categories st)).
Qed.

(** X12: adding a category whose name the registry holds is answered 400
    and changes nothing; adding a new name is answered 200, and the list of
    categories is then the old list with the name put in, in ascending
    order. *)
Theorem add_category_listed (name : jsstring) faults st :
  name ≠ [] →
  if bool_decide (name ∈ map category_name (categories st))
  then run (add_category (Some name)) faults st =
       (Responded 400 (Message "Category already exists"), st)
  else
    let added := run (add_category (Some name)) [] st in
    added.1 = Responded 200 (CategoryAdded "Category added" (categories_auto st))
    ∧ (run list_categories [] added.2).1 =
      Responded 200 (CategoryNames (category_list added.2))
    ∧ category_list added.2 ≡ₚ name :: category_list st
    ∧ Sorted jsstring_le (category_list added.2)
    ∧ inventory added.2 = inventory st.
Proof.
  intros Hname. rewrite !add_category_run by done. fold (has_name name (categories st)).
  destruct (has_name name (categories st)); [by rewrite orb_true_r|].
  cbn [head default orb fst snd]. repeat split.
  - unfold category_list. rewrite !merge_sort_Permutation. simpl.
    rewrite map_app. simpl. by rewrite Permutation_app_comm.
  - apply Sorted_merge_sort. apply _.
Qed.

Lemma add_category_listed_witness :
  let st := Db [] 1 [CategoryRow 1 (js "Network")] 2 [] 1 in
  let added := run (add_category (Some (js "IT"))) [] st in
  added.1 = Responded 200 (CategoryAdded "Category added" 2)
  ∧ (run list_categories [] added.2).1 =
    Responded 200 (CategoryNames (category_list added.2))
  ∧ category_list added.2 ≡ₚ js "IT" :: category_list st
  ∧ Sorted jsstring_le (category_list added.2)
  ∧ inventory added.2 = inventory st.
Proof.
  intros st.
  by apply (add_category_listed (js "IT") [] st).
Defined.

(** X13: renaming a category to the name of another category of the
    registry is answered 500 and changes nothing: the registry keeps both
    names and no item is relabelled. *)
Theorem rename_onto_existing_category oldName newName faults st :
  trim newName ≠ [] →
  oldName ∈ map category_name (categories st) →
  trim newName ∈ map category_name (categories st) →
  trim newName ≠ oldName →
  ∃ err, run (rename_category oldName (Some newName)) faults st =
         (Responded 500 (MessageError "Error updating category" err), st).
Proof.
  intros Hnew Hold Hin Hne. rewrite rename_category_run by done.
  destruct (default false (head faults)); [eauto|].
  unfold rename_clash.
  rewrite (proj2 (has_name_true _ _) Hold), (proj2 (has_name_true _ _) Hin).
  rewrite bool_decide_eq_false_2 by done. simpl. eauto.
Qed.

Lemma rename_onto_existing_category_witness :
  let st := Db [] 1 [CategoryRow 1 (js "IT"); CategoryRow 2 (js "Network")] 3
              [InventoryRow 1 1 (js "IT") None (js "Laptop A") None None None None None
                 None None 1] 2 in
  ∃ err, run (rename_category (js "IT") (Some (js "Network "))) [] st =
         (Responded 500 (MessageError "Error updating category" err), st).
Proof.
  intros st.
  apply (rename_onto_existing_category (js "IT") (js "Network ") [] st);
    by apply (bool_decide_unpack _).
Defined.

(** ** The catalog *)

Lemma filter_all {A} (P : A → Prop) `{∀ x, Decision (P x)} (l : list A) :
  Forall P l → filter P l = l.
Proof.
  induction 1 as [|x l Hx Hl IH]; [done|].
  by rewrite filter_cons, decide_True, IH.
Qed.

Lemma filter_views id (rows : list inventory_row) :
  map view (filter (λ r, inv_id r ≠ id) rows) =
  filter (λ v, v_id v ≠ id) (map view rows).
Proof.
  induction rows as [|r rows IH]; [done|]. simpl. rewrite !filter_cons. simpl.
  destruct (decide (inv_id r ≠ id)); simpl; by rewrite IH.
Qed.

Global Instance no_le_total : Total no_le.
Proof. intros r1 r2. unfold no_le. lia. Qed.

Global Instance no_le_trans : Transitive no_le.
Proof. intros r1 r2 r3. unfold no_le. lia. Qed.

Lemma StronglySorted_filter {A} (R : relation A) (P : A → Prop) `{∀ x, Decision (P x)}
    (l : list A) :
  StronglySorted R l → StronglySorted R (filter P l).
Proof.
  induction 1 as [|x l Hsorted IH Hle]; [constructor|].
  rewrite filter_cons. destruct (decide (P x)); [|done].
  constructor; [done|]. by apply Forall_filter_keep.
Qed.

Lemma same_no_same_row (rows : list inventory_row) r1 r2 :
  NoDup (map inv_no rows) → r1 ∈ rows → r2 ∈ rows → inv_no r1 = inv_no r2 → r1 = r2.
Proof.
  induction rows as [|r rows IH]; intros Hnd H1 H2 Hno; [by apply elem_of_nil in H1|].
  simpl in Hnd. apply NoDup_cons in Hnd as [Hfresh Hnd].
  apply elem_of_cons in H1 as [->|H1], H2 as [->|H2]; [done| | |by apply IH].
  - exfalso. apply Hfresh. rewrite Hno.
    apply list_elem_of_In, in_map, list_elem_of_In, H2.
  - exfalso. apply Hfresh. rewrite <- Hno.
    apply list_elem_of_In, in_map, list_elem_of_In, H1.
Qed.

(** With distinct numbers, ordering by number and dropping an id commute. *)
Lemma sort_filter_rows id (rows : list inventory_row) :
  NoDup (map inv_no rows) →
  merge_sort no_le (filter (λ r, inv_id r ≠ id) rows) =
  filter (λ r, inv_id r ≠ id) (merge_sort no_le rows).
Proof.
  intros Hnd. apply (StronglySorted_unique_strong no_le).
  - intros r1 r2 H1 H2 Hle Hge. apply (same_no_same_row rows); [done| | |].
    + rewrite merge_sort_Permutation in H1. by apply list_elem_of_filter in H1 as [_ ?].
    + apply list_elem_of_filter in H2 as [_ H2]. by rewrite merge_sort_Permutation in H2.
    + unfold no_le in *. lia.
  - apply StronglySorted_merge_sort; apply _.
  - apply StronglySorted_filter, StronglySorted_merge_sort; apply _.
  - by rewrite !merge_sort_Permutation.
Qed.

Lemma sorted_views (rows : list inventory_row) :
  StronglySorted no_le rows → StronglySorted (λ v w, v_no v ≤ v_no w) (map view rows).
Proof.
  induction 1 as [|r rows Hsorted IH Hle]; simpl; constructor; [done|].
  apply Forall_forall. intros v Hv.
  apply list_elem_of_In, in_map_iff in Hv as (r' & <- & Hr').
  apply list_elem_of_In in Hr'. eapply Forall_forall in Hle; [|exact Hr'].
  exact Hle.
Qed.

(** X14: deleting an item is answered 200 whether or not the id exists.
    The rows with that id are removed and every other row stays as it is,
    its number included: nothing is renumbered.  The list of items is the
    rows in ascending order of their numbers, and, the numbers being
    distinct, the list afterwards is the list before without the item, in
    the same order. *)
Theorem delete_item_removes id st :
  let deleted := run (delete_item id) [] st in
  deleted.1 = Responded 200 (Message "Item deleted")
  ∧ inventory deleted.2 = filter (λ r, inv_id r ≠ id) (inventory st)
  ∧ (id ∉ map inv_id (inventory st) → deleted.2 = st)
  ∧ (∃ before after,
       (run list_items [] st).1 = Responded 200 (Items before)
       ∧ (run list_items [] deleted.2).1 = Responded 200 (Items after)
       ∧ before ≡ₚ map view (inventory st)
       ∧ StronglySorted (λ v w, v_no v ≤ v_no w) before
       ∧ StronglySorted (λ v w, v_no v ≤ v_no w) after
       ∧ (NoDup (map inv_no (inventory st)) → after = filter (λ v, v_id v ≠ id) before))
  ∧ users deleted.2 = users st ∧ categories deleted.2 = categories st.
Proof.
  intros deleted. unfold deleted.
  cbn [delete_item run db_step head tail default db_exec fst snd].
  repeat split.
  - intros Hid. rewrite filter_all; [apply with_inventory_same|].
    apply Forall_forall. intros r Hr Heq. apply Hid. rewrite <- Heq.
    apply list_elem_of_In, in_map, list_elem_of_In, Hr.
  - eexists _, _. rewrite !list_items_run. split; [reflexivity|].
    split; [reflexivity|]. simpl. split; [by rewrite merge_sort_Permutation|].
    split; [apply sorted_views, StronglySorted_merge_sort; apply _|].
    split; [apply sorted_views, StronglySorted_merge_sort; apply _|].
    intros Hnd. by rewrite <- filter_views, sort_filter_rows.
Qed.

Lemma delete_item_removes_witness :
  let row := λ id no name, InventoryRow id no (js "IT") None (js name) None None None
                             None None None None 1 in
  let shown := λ id no name, ItemView id no (js "IT") None (js name) None None None None
                               None None None in
  let st := Db [] 1 [] 1 [row 1 3 "Desk"; row 2 1 "Laptop A"; row 3 2 "Laptop B"] 4 in
  (run (delete_item 5) [] st).2 = st
  ∧ ∃ before after,
      (run list_items [] st).1 = Responded 200 (Items before)
      ∧ (run list_items [] (run (delete_item 3) [] st).2).1 = Responded 200 (Items after)
      ∧ before = [shown 2 1 "Laptop A"; shown 3 2 "Laptop B"; shown 1 3 "Desk"]
      ∧ after = [shown 2 1 "Laptop A"; shown 1 3 "Desk"].
Proof.
  intros row shown st. split.
  - apply (proj1 (proj2 (proj2 (delete_item_removes 5 st)))).
    by apply (bool_decide_unpack _).
  - destruct (proj1 (proj2 (proj2 (proj2 (delete_item_removes 3 st)))))
      as (before & after & Hbefore & Hafter & _ & _ & _ & Hsame).
    exists before, after. split; [exact Hbefore|]. split; [exact Hafter|].
    assert (before = [shown 2 1 "Laptop A"; shown 3 2 "Laptop B"; shown 1 3 "Desk"])
      as Hlist by (by injection Hbefore as <-).
    split; [exact Hlist|]. rewrite Hsame, Hlist; [reflexivity|].
    by apply (bool_decide_unpack _).
Defined.

Lemma update_rows k n f id rows :
  Forall2 (updated k n f id) rows (map (set_fields k n f id) rows).
Proof.
  induction rows as [|r rows IH]; simpl; constructor; [|done].
  unfold updated, set_fields. destruct (decide _); [|done].
  by repeat split.
Qed.

(** X15: an update that carries a [kategori] and a [nama], empty or not
    (the check of the add is not made here), is answered 200; the item with
    that id takes every field sent, column by column, absent ones becoming
    NULL, and keeps its id, its number and its creator; the other items are
    as they were. *)
Theorem update_item_replaces_fields id f k n st :
  kategori f = Some k → nama f = Some n →
  let r := run (update_item id f) [] st in
  r.1 = Responded 200 (Message "Item updated")
  ∧ Forall2 (updated k n f id) (inventory st) (inventory r.2)
  ∧ users r.2 = users st ∧ categories r.2 = categories st.
Proof.
  intros Hk Hn r. unfold r, update_item.
  cbn [run db_step head tail default db_exec fst snd]. rewrite Hk, Hn.
  repeat split. apply update_rows.
Qed.

Lemma update_item_replaces_fields_witness :
  let old := InventoryRow 1 1 (js "IT") (Some (js "X-1")) (js "Laptop A") None None
               None None (Some (js "Baik")) None None 1 in
  let other := InventoryRow 2 2 (js "IT") None (js "Desk") None None None None None
                 None None 1 in
  let st := Db [] 1 [] 1 [old; other] 3 in
  let f := ItemFields (Some []) (Some (js "X-2")) (Some []) (Some (js "SN-9")) None
             (Some (js "Gudang")) None (Some (js "Rusak")) None (Some (js "retur")) in
  let r := run (update_item 1 f) [] st in
  r.1 = Responded 200 (Message "Item updated")
  ∧ Forall2 (updated [] [] f 1) [old; other] (inventory r.2)
  ∧ inventory r.2 =
    [InventoryRow 1 1 [] (Some (js "X-2")) [] (Some (js "SN-9")) None
       (Some (js "Gudang")) None (Some (js "Rusak")) None (Some (js "retur")) 1; other]
  ∧ users r.2 = users st ∧ categories r.2 = categories st.
Proof.
  intros old other st f r.
  destruct (update_item_replaces_fields 1 f [] [] st eq_refl eq_refl)
    as (Hanswer & Hrows & Husers & Hcats).
  split; [exact Hanswer|]. split; [exact Hrows|]. split; [reflexivity|].
  split; [exact Husers|exact Hcats].
Defined.

(** X16: numbers are not kept for the item they were given to.  When an
    item is added and then deleted, the next add is given the number the
    deleted item had, under a new id. *)
Theorem deleted_number_is_reused user f user' g st :
  acceptable st user f → acceptable st user' g →
  inventory_auto st ∉ map inv_id (inventory st) →
  let added := run (add_item user f) [] st in
  let deleted := run (delete_item (inventory_auto st)) [] added.2 in
  let again := run (add_item user' g) [] deleted.2 in
  added.1 =
    Responded 200 (ItemAdded "Item added" (inventory_auto st) (next_no (inventory st)))
  ∧ deleted.1 = Responded 200 (Message "Item deleted")
  ∧ again.1 =
    Responded 200 (ItemAdded "Item added" (inventory_auto st + 1) (next_no (inventory st))).
Proof.
  intros Hf Hg Hfresh added deleted again.
  unfold again, deleted, added. rewrite add_item_ok by done.
  cbn [fst snd delete_item run db_step head tail default db_exec].
  split; [done|]. split; [done|].
  cbn [add_row with_inventory inventory inventory_auto users users_auto categories
         categories_auto].
  rewrite filter_app, filter_all.
  2:{ apply Forall_forall. intros r Hr Heq. apply Hfresh. rewrite <- Heq.
      apply list_elem_of_In, in_map, list_elem_of_In, Hr. }
  rewrite filter_cons, decide_False by (simpl; intros H; by apply H).
  rewrite filter_nil, app_nil_r.
  rewrite add_item_ok; [done|]. exact Hg.
Qed.

Lemma deleted_number_is_reused_witness :
  let st := Db [UserRow 1 (js "ann") (js "ann@example.org") (js "hash")] 2 [] 1
              [InventoryRow 1 1 (js "IT") None (js "Laptop A") None None None None None
                 None None 1] 2 in
  let ann := PublicUser 1 (js "ann") (js "ann@example.org") in
  let item := λ name, ItemFields (Some (js "IT")) None (Some (js name)) None None None
                        None None None None in
  let added := run (add_item ann (item "Laptop B")) [] st in
  let deleted := run (delete_item 2) [] added.2 in
  let again := run (add_item ann (item "Desk")) [] deleted.2 in
  added.1 = Responded 200 (ItemAdded "Item added" 2 2)
  ∧ deleted.1 = Responded 200 (Message "Item deleted")
  ∧ again.1 = Responded 200 (ItemAdded "Item added" 3 2).
Proof.
  intros st ann item.
  apply (deleted_number_is_reused ann (item "Laptop B") ann (item "Desk") st).
  - repeat split. by apply (bool_decide_unpack _).
  - repeat split. by apply (bool_decide_unpack _).
  - by apply (bool_decide_unpack _).
Defined.

(** X17: an add never looks at the registry.  Its answer and what it does
    to the catalog are the same whatever the categories are: an item can be
    given a label the registry does not hold. *)
Theorem add_item_ignores_registry user f faults st cs auto :
  run (add_item user f) faults (with_categories st cs auto) =
  ((run (add_item user f) faults st).1,
   with_categories (run (add_item user f) faults st).2 cs auto).
Proof.
  destruct (truthy (nama f)) eqn:Hn; [|by rewrite !add_item_rejects by auto].
  destruct (truthy (kategori f)) eqn:Hk; [|by rewrite !add_item_rejects by auto].
  rewrite !add_item_run by done. destruct (default false (head faults)); [done|].
  unfold db_step. destruct (default false (head (tail faults))); [done|]. simpl.
  destruct (kategori f), (nama f); try done.
  by destruct (bool_decide (pu_id user ∈ map user_id (users st))).
Qed.

(** ** The entries of the statistics *)

Section GroupOf.
Context {K : Type} `{EqDecision K}.

Lemma group_of_bump (k k' : K) groups :
  group_of k (bump k' groups) =
  if decide (k = k') then Some (default 0 (group_of k groups) + 1)
  else group_of k groups.
Proof.
  induction groups as [|[k0 n] groups IH]; cbn [bump group_of].
  { by destruct (decide (k = k')). }
  destruct (decide (k' = k0)) as [->|Hne]; cbn [group_of].
  - by destruct (decide (k = k0)).
  - rewrite IH. destruct (decide (k = k0)) as [->|]; [|done].
    by rewrite decide_False by done.
Qed.

Lemma group_of_none (k : K) groups : k ∉ map fst groups → group_of k groups = None.
Proof.
  induction groups as [|[k0 n] groups IH]; [done|]. simpl.
  intros [Hne Hk]%not_elem_of_cons. rewrite decide_False by done. by apply IH.
Qed.

Lemma group_of_foldl (k : K) (col : list K) groups :
  group_of k (foldl (λ groups k, bump k groups) groups col) =
  match group_of k groups with
  | Some n => Some (n + Z.of_nat (length (filter (λ x, x = k) col)))
  | None => entry (Z.of_nat (length (filter (λ x, x = k) col)))
  end.
Proof.
  revert groups. induction col as [|x col IH]; intros groups.
  { simpl. destruct (group_of k groups); [f_equal; lia|done]. }
  cbn [foldl]. rewrite IH, group_of_bump, filter_cons.
  destruct (decide (k = x)) as [->|Hne].
  - rewrite decide_True by done. cbn [length].
    destruct (group_of x groups) as [n|]; simpl.
    + f_equal. lia.
    + unfold entry. destruct (Z.eqb_spec (Z.of_nat (S (length (filter (λ y, y = x) col)))) 0);
        [lia|]. f_equal. lia.
  - by rewrite decide_False by done.
Qed.

(** The row of a GROUP BY for a value carries the number of rows of the
    table with that value; a value no row has gets no row. *)
Lemma group_of_count (k : K) (col : list K) :
  group_of k (group_count col) = entry (Z.of_nat (length (filter (λ x, x = k) col))).
Proof. unfold group_count. by rewrite group_of_foldl. Qed.
End GroupOf.

Lemma filter_map_length {A B} (f : A → B) (P : B → Prop) `{∀ y, Decision (P y)}
    (l : list A) :
  length (filter P (map f l)) = length (filter (λ x, P (f x)) l).
Proof.
  induction l as [|x l IH]; [done|]. simpl. rewrite !filter_cons.
  destruct (decide (P (f x))); simpl; by rewrite IH.
Qed.

Lemma category_object_lookup (groups : list (jsstring * Z)) (obj : gmap jsstring Z) k :
  NoDup (map fst groups) → k ≠ js "__proto__" →
  foldl (λ acc item, js_set acc item.1 item.2) obj groups !! k =
  match group_of k groups with
  | Some n => Some n
  | None => obj !! k
  end.
Proof.
  intros Hnd Hk. revert obj Hnd.
  induction groups as [|[k0 n] groups IH]; intros obj Hnd; [done|].
  apply NoDup_cons in Hnd as [Hk0 Hnd]. cbn [foldl group_of fst snd].
  rewrite IH by done. destruct (decide (k = k0)) as [->|Hne].
  - rewrite group_of_none by done. unfold js_set. rewrite decide_False by done.
    apply lookup_insert_eq.
  - destruct (group_of k groups); [done|]. unfold js_set.
    destruct (decide (k0 = js "__proto__")); [done|]. by rewrite lookup_insert_ne.
Qed.

Lemma status_object_lookup (groups : list (option jsstring * Z)) (obj : gmap jsstring Z) k :
  NoDup (map fst groups) → k ≠ js "__proto__" → k ≠ js "null" →
  foldl (λ acc item, js_set acc (prop_key item.1) item.2) obj groups !! k =
  match group_of (Some k) groups with
  | Some n => Some n
  | None => obj !! k
  end.
Proof.
  intros Hnd Hk Hnull. revert obj Hnd.
  induction groups as [|[k0 n] groups IH]; intros obj Hnd; [done|].
  apply NoDup_cons in Hnd as [Hk0 Hnd]. cbn [foldl group_of fst snd].
  rewrite IH by done. destruct (decide (Some k = k0)) as [<-|Hne].
  - rewrite group_of_none by done. unfold js_set. simpl.
    rewrite decide_False by done. apply lookup_insert_eq.
  - destruct (group_of (Some k) groups); [done|]. unfold js_set.
    destruct (decide (prop_key k0 = js "__proto__")); [done|].
    rewrite lookup_insert_ne; [done|]. destruct k0 as [s|]; cbn [prop_key]; congruence.
Qed.

(** X18: key by key the statistics are right for every key other than
    "__proto__" and, for the statuses, "null": [byCategory] maps a label to
    the number of items that carry it, [byStatus] maps a status to the number
    of items that have it, and neither has an entry for a value no item
    has. *)
Theorem stats_entries st s k :
  (run get_stats [] st).1 = Responded 200 (Statistics s) →
  k ≠ js "__proto__" →
  byCategory s !! k = entry (count_kategori k (inventory st))
  ∧ (k ≠ js "null" → byStatus s !! k = entry (count_status k (inventory st))).
Proof.
  intros Hrun Hk. rewrite get_stats_run in Hrun. injection Hrun as <-. simpl.
  destruct (group_count_rows (map inv_status (inventory st))) as (Hnd1 & _ & _).
  destruct (group_count_rows (map inv_kategori (inventory st))) as (Hnd2 & _ & _).
  split.
  - unfold category_object. rewrite category_object_lookup by done.
    rewrite group_of_count, filter_map_length. unfold count_kategori, entry.
    by destruct (_ =? 0).
  - intros Hnull. unfold status_object. rewrite status_object_lookup by done.
    rewrite group_of_count, filter_map_length. unfold count_status, entry.
    by destruct (_ =? 0).
Qed.

Lemma stats_entries_witness :
  let st := Db [] 1 [] 1
              [InventoryRow 1 1 (js "IT") None (js "Laptop A") None None None None None
                 None None 1;
               InventoryRow 2 2 (js "IT") None (js "Laptop B") None None None None
                 (Some (js "Baik")) None None 1] 3 in
  let s := Stats 2 {[ js "null" := 1; js "Baik" := 1 ]} {[ js "IT" := 2 ]} in
  byCategory s !! js "IT" = Some 2 ∧ byStatus s !! js "Baik" = Some 1.
Proof.
  intros st s.
  destruct (stats_entries st s (js "IT")) as [Hcat _]; [by vm_compute|done|].
  destruct (stats_entries st s (js "Baik")) as [_ Hstat]; [by vm_compute|done|].
  split; [exact Hcat|]. apply Hstat. done.
Defined.

(** ** Turns and runs *)

Lemma pool_step_settled served o rest st :
  pool_step (length served) (served ++ settled o :: rest) st =
  (served ++ settled o :: rest, st).
Proof.
  unfold pool_step. rewrite list_lookup_middle by done. by destruct o.
Qed.

Lemma run_pool_settled n served o rest st :
  run_pool (replicate n (length served)) (served ++ settled o :: rest) st =
  (served ++ settled o :: rest, st).
Proof.
  induction n as [|n IH]; [done|]. cbn [replicate run_pool].
  by rewrite pool_step_settled.
Qed.

(** A handler that is given its turns without a turn of another in
    between ends as it does when it runs alone: after enough turns its place
    in the pool holds the outcome of [run], the tables are those of [run],
    and the other handlers of the pool have not moved. *)
Lemma uninterrupted_turns_are_a_run h served rest st :
  ∃ n, ∀ m, (n ≤ m)%nat →
    run_pool (replicate m (length served)) (served ++ h :: rest) st =
    (served ++ settled (run h [] st).1 :: rest, (run h [] st).2).
Proof.
  revert st. induction h as [code b|e|R q cb IH]; intros st.
  - exists 0%nat. intros m _. apply (run_pool_settled m served (Responded code b)).
  - exists 0%nat. intros m _. apply (run_pool_settled m served (Uncaught e)).
  - destruct (db_step q false st) as [a st1] eqn:Hstep.
    destruct (IH a st1) as [n Hn]. exists (S n). intros [|m] Hm; [lia|].
    cbn [replicate run_pool]. rewrite pool_step_middle, Hstep. cbn [fst snd].
    rewrite Hn by lia. cbn [run head tail default]. by rewrite Hstep.
Qed.

(** ** The name a rename stores *)

Lemma trimStart_suffix s : ∃ spaces, s = spaces ++ trimStart s.
Proof.
  induction s as [|c s [spaces IH]]; [by exists []|]. simpl.
  destruct (is_whitespace c); [|by exists []].
  exists (c :: spaces). simpl. by rewrite <- IH.
Qed.

Lemma trimStart_head s c t : trimStart s = c :: t → is_whitespace c = false.
Proof.
  induction s as [|c' s IH]; [done|]. simpl.
  destruct (is_whitespace c') eqn:Hc'; [done|]. by intros [= <- _].
Qed.

(** What [trim] returns neither starts nor ends with whitespace. *)
Lemma trim_edges s c t :
  trim s = c :: t →
  is_whitespace c = false ∧ ∀ d, last (c :: t) = Some d → is_whitespace d = false.
Proof.
  unfold trim. intros Htrim.
  destruct (trimStart_suffix (reverse (trimStart s))) as [spaces Hsuffix].
  assert (trimStart (reverse (trimStart s)) = reverse (c :: t)) as Hv
    by (by rewrite <- Htrim, reverse_involutive).
  rewrite Hv in Hsuffix. split.
  - apply (f_equal reverse) in Hsuffix.
    rewrite reverse_involutive, reverse_app, reverse_involutive in Hsuffix.
    by eapply trimStart_head.
  - intros d [l Hl]%last_Some. rewrite Hl, reverse_snoc in Hv.
    by eapply trimStart_head.
Qed.

(** X20: the name a successful rename puts in the registry is not empty
    and neither starts nor ends with whitespace, whatever surrounded the
    name in the request. *)
Theorem renamed_category_is_trimmed oldName newName faults st b st' :
  oldName ∈ map category_name (categories st) →
  run (rename_category oldName (Some newName)) faults st = (Responded 200 b, st') →
  ∃ c t,
    trim newName = c :: t
    ∧ (c :: t ∈ map category_name (categories st'))
    ∧ is_whitespace c = false
    ∧ ∀ d, last (c :: t) = Some d → is_whitespace d = false.
Proof.
  intros Hold Hrun. apply rename_category_success in Hrun as (Hnew & _ & ->).
  destruct (trim newName) as [|c t] eqn:Htrim; [done|]. exists c, t.
  split; [done|]. split; [|by apply (trim_edges newName)].
  simpl. rewrite renamed_names.
  apply list_elem_of_In, in_map_iff. exists oldName.
  split; [by rewrite decide_True|by apply list_elem_of_In].
Qed.

Lemma renamed_category_is_trimmed_witness :
  let st := Db [] 1 [CategoryRow 1 (js "IT")] 2 [] 1 in
  ∃ c t,
    trim (js "  Network ") = c :: t
    ∧ (c :: t ∈ map category_name
                  (categories (run (rename_category (js "IT") (Some (js "  Network ")))
                                 [] st).2))
    ∧ is_whitespace c = false
    ∧ ∀ d, last (c :: t) = Some d → is_whitespace d = false.
Proof.
  intros st.
  apply (renamed_category_is_trimmed (js "IT") (js "  Network ") [] st
           (Message "Category updated successfully")).
  - by apply (bool_decide_unpack _).
  - reflexivity.
Defined.

(** ** Two adds of one category in flight *)

Lemma add_category_unfold (name : jsstring) :
  name ≠ [] →
  add_category (Some name) =
  DbQuery (InsertCategory (Some name)) (λ a,
    match a with
    | CbErr _ => Respond 400 (Message "Category already exists")
    | CbOk insertId => Respond 200 (CategoryAdded "Category added" insertId)
    end).
Proof. intros Hname. unfold add_category. by rewrite truthy_nonempty. Qed.

Lemma pool_step_idle i p st :
  match p !! i with Some (DbQuery _ _) => False | _ => True end →
  pool_step i p st = (p, st).
Proof. unfold pool_step. by destruct (p !! i) as [[]|]. Qed.

Lemma run_pool_idle schedule p st :
  (∀ i, match p !! i with Some (DbQuery _ _) => False | _ => True end) →
  run_pool schedule p st = (p, st).
Proof.
  intros Hidle. induction schedule as [|i schedule IH]; [done|].
  cbn [run_pool]. rewrite pool_step_idle by apply Hidle. apply IH.
Qed.

Section TwoAdds.
Variable name : jsstring.
Variable st : db.
Hypothesis name_given : name ≠ [].
Hypothesis name_new : name ∉ map category_name (categories st).

Let won : handler := Respond 200 (CategoryAdded "Category added" (categories_auto st)).
Let lost : handler := Respond 400 (Message "Category already exists").
Let st1 : db :=
  with_categories st (categories st ++ [CategoryRow (categories_auto st) name])
    (categories_auto st + 1).

Lemma insert_category_first :
  db_step (InsertCategory (Some name)) false st = (CbOk (categories_auto st), st1).
Proof.
  unfold db_step. simpl. by rewrite (proj2 (has_name_false _ _) name_new).
Qed.

Lemma insert_category_second :
  db_step (InsertCategory (Some name)) false st1 = (CbErr ER_DUP_ENTRY, st1).
Proof.
  unfold db_step. simpl. rewrite (proj2 (has_name_true name _)); [done|].
  rewrite map_app. apply elem_of_app. right. left.
Qed.

Lemma second_add_loses schedule :
  (1%nat ∈ schedule → run_pool schedule [won; add_category (Some name)] st1 =
                      ([won; lost], st1))
  ∧ (0%nat ∈ schedule → run_pool schedule [add_category (Some name); won] st1 =
                        ([lost; won], st1)).
Proof.
  rewrite add_category_unfold by done.
  induction schedule as [|i schedule [IH1 IH0]].
  { split; intros H; by apply elem_of_nil in H. }
  split; intros Hin; cbn [run_pool].
  - destruct i as [|[|i]].
    + rewrite pool_step_idle by done. apply IH1.
      by apply elem_of_cons in Hin as [?|?].
    + unfold pool_step. cbn [lookup list_lookup]. rewrite insert_category_second.
      cbn [insert list_insert]. apply run_pool_idle. by intros [|[|j]].
    + rewrite pool_step_idle by done. apply IH1.
      by apply elem_of_cons in Hin as [?|?].
  - destruct i as [|i].
    + unfold pool_step. cbn [lookup list_lookup]. rewrite insert_category_second.
      cbn [insert list_insert]. apply run_pool_idle. by intros [|[|j]].
    + rewrite pool_step_idle by (by destruct i). apply IH0.
      by apply elem_of_cons in Hin as [?|?].
Qed.

Lemma two_adds_one_wins schedule :
  0%nat ∈ schedule → 1%nat ∈ schedule →
  run_pool schedule [add_category (Some name); add_category (Some name)] st =
    ([won; lost], st1)
  ∨ run_pool schedule [add_category (Some name); add_category (Some name)] st =
    ([lost; won], st1).
Proof.
  induction schedule as [|i schedule IH]; intros H0 H1.
  { by apply elem_of_nil in H0. }
  cbn [run_pool]. destruct i as [|[|i]].
  - left. rewrite add_category_unfold at 1 by done.
    unfold pool_step. cbn [lookup list_lookup]. rewrite insert_category_first.
    cbn [insert list_insert]. apply second_add_loses.
    by apply elem_of_cons in H1 as [?|?].
  - right. rewrite add_category_unfold at 2 by done.
    unfold pool_step. cbn [lookup list_lookup]. rewrite insert_category_first.
    cbn [insert list_insert]. apply second_add_loses.
    by apply elem_of_cons in H0 as [?|?].
  - rewrite pool_step_idle by done. apply IH.
    + by apply elem_of_cons in H0 as [?|?].
    + by apply elem_of_cons in H1 as [?|?].
Qed.
End TwoAdds.

(** X21: two adds of the same new category in flight together cannot both
    go through, however their turns fall: once both have had a turn, one has
    been answered 200, the other 400, and the registry holds the name
    once. *)
Theorem concurrent_category_adds (name : jsstring) st schedule :
  name ≠ [] → name ∉ map category_name (categories st) →
  0%nat ∈ schedule → 1%nat ∈ schedule →
  let r := run_pool schedule [add_category (Some name); add_category (Some name)] st in
  let won := Respond 200 (CategoryAdded "Category added" (categories_auto st)) in
  let lost := Respond 400 (Message "Category already exists") in
  (r.1 = [won; lost] ∨ r.1 = [lost; won])
  ∧ categories r.2 = categories st ++ [CategoryRow (categories_auto st) name]
  ∧ inventory r.2 = inventory st.
Proof.
  intros Hname Hnew H0 H1 r won lost. unfold r.
  destruct (two_adds_one_wins name st Hname Hnew schedule H0 H1) as [-> | ->];
    simpl; auto.
Qed.

Lemma concurrent_category_adds_witness :
  let st := Db [] 1 [CategoryRow 1 (js "IT")] 2 [] 1 in
  let r := run_pool [1; 0]%nat
             [add_category (Some (js "Network")); add_category (Some (js "Network"))] st in
  (r.1 = [Respond 200 (CategoryAdded "Category added" 2);
          Respond 400 (Message "Category already exists")]
   ∨ r.1 = [Respond 400 (Message "Category already exists");
            Respond 200 (CategoryAdded "Category added" 2)])
  ∧ categories r.2 = categories st ++ [CategoryRow 2 (js "Network")]
  ∧ inventory r.2 = inventory st.
Proof.
  intros st.
  apply (concurrent_category_adds (js "Network") st [1; 0]%nat);
    by apply (bool_decide_unpack _).
Defined.
